(** * The trace agent's concentrator and sampler backend

    A shallow embedding of [src/agent/concentrator.go] (the concentrator of
    package [main] and the sampler [Backend] that the same file carries) and of
    the fixtures of [src/model/sublayers_test.go].

    - Go's [int64] is a [Z] kept inside the 64-bit range by an explicit
      wrap-around; [%] and [/] truncate toward zero and panic on a zero divisor.
    - Go's [float64] is IEEE 754 binary64, which is what Rocq's primitive
      [float] is: the arithmetic below is the code's, rounding included.
    - Go maps are [gmap]s; a [nil] map is [None].
    - The mutexes serialise the methods; the model is the sequential behaviour
      of each method taken as one step.
    - [model.Now()] is the clock: its reading at the call is the argument [now].
    - The global statsd client is a sink: every method returns the calls it
      made on it. *)

From Stdlib Require Import ZArith List String Floats Lia Bool.
From Stdlib Require Uint63.
From stdpp Require Import base option gmap sorting strings list fin_maps.

Local Open Scope Z_scope.

(** ** 64-bit signed integers *)

Module Int64.

Definition min_int : Z := - 2 ^ 63.
Definition max_int : Z := 2 ^ 63 - 1.

Definition in_range (z : Z) : Prop := min_int <= z <= max_int.

(** Two's complement wrap-around of a mathematical integer. *)
Definition wrap (z : Z) : Z := (z + 2 ^ 63) mod 2 ^ 64 - 2 ^ 63.

Definition add (a b : Z) : Z := wrap (a + b).
Definition sub (a b : Z) : Z := wrap (a - b).

(** [a % b]: the sign follows the dividend; a zero divisor panics. *)
Definition rem (a b : Z) : option Z :=
  if b =? 0 then None else Some (Z.rem a b).

(** [a / b]: truncated; a zero divisor panics. *)
Definition quot (a b : Z) : option Z :=
  if b =? 0 then None else Some (wrap (Z.quot a b)).

End Int64.

(** ** Conversions to [float64] *)

Module Float64.

(** [float64(n)] for an [int64] of magnitude below 2^63: the nearest
    binary64 number. *)
Definition of_int64 (n : Z) : float :=
  if n <? 0 then (- PrimFloat.of_uint63 (Uint63.of_Z (- n)))%float
  else PrimFloat.of_uint63 (Uint63.of_Z n).

End Float64.

(** ** Package statsd: the calls made on the global client *)

Module statsd.

Inductive Call : Type :=
| Count (name : string) (value : Z) (tags : list string) (rate : float)
| Histogram (name : string) (value : float) (tags : list string) (rate : float).

End statsd.

(** ** Package model: spans and stats buckets *)

Module model.

Record Span : Type := {
  TraceID : Z;
  SpanID : Z;
  ParentID : Z;
  Service : string;
  Name : string;
  Resource : string;
  Type_ : string;
  Start : Z;
  Duration : Z;
  Env : string;
  Error : Z;
  Metrics : option (gmap string float)
}.

Definition Trace : Type := list Span.

(** Modelled from the spec: [Span.End] is not in src; the spec derives
    [End = Start + Duration], which on [int64] wraps around. *)
Definition End (s : Span) : Z := Int64.add (Start s) (Duration s).

(** Modelled from the spec: the aggregation key of a stats bucket is the
    tuple (env, resource, service, operation, span type, extra dimension
    values); the grain code is not in src. *)
Definition AggrKey : Type :=
  (string * string * string * string * string * list string)%type.

Record Count : Type := {
  Hits : Z;
  Errors : Z;
  DurationSum : Z
}.

(** Modelled from the spec: the latency sketch of a key is kept as the
    durations inserted into it; [Summary.N] is how many there are. *)
Record Distribution : Type := { Samples : list Z }.

Definition Summary_N (d : Distribution) : Z := Z.of_nat (length (Samples d)).

Record StatsBucket : Type := {
  BStart : Z;
  BDuration : Z;
  Counts : gmap AggrKey Count;
  Distributions : gmap AggrKey Distribution
}.

(** Modelled from the spec: [NewStatsBucket(ts, d)] is not in src; a bucket
    is tagged with its start and its width and starts empty. *)
Definition NewStatsBucket (ts d : Z) : StatsBucket :=
  {| BStart := ts; BDuration := d; Counts := ∅; Distributions := ∅ |}.

(** Modelled from the spec: the value of an extra dimension is the span
    attribute of that name. *)
Definition attribute (s : Span) (a : string) : string :=
  if String.eqb a "service" then Service s
  else if String.eqb a "name" then Name s
  else if String.eqb a "resource" then Resource s
  else if String.eqb a "type" then Type_ s
  else if String.eqb a "env" then Env s
  else "".

Definition key_of (s : Span) (env : string) (aggregators : list string) : AggrKey :=
  (env, Resource s, Service s, Name s, Type_ s, map (attribute s) aggregators).

Definition count_span (s : Span) (c : Count) : Count :=
  {| Hits := Int64.add (Hits c) 1;
     Errors := if Error s =? 0 then Errors c else Int64.add (Errors c) 1;
     DurationSum := Int64.add (DurationSum c) (Duration s) |}.

(** Modelled from the spec: [StatsBucket.HandleSpan] is not in src. For the
    key of the span it increments hits, conditionally errors, adds the
    duration to the duration sum and inserts the duration into the sketch.
    Only the two maps of the bucket change; Go shares them between the copy
    of the bucket a caller holds and the one stored in a map. *)
Definition HandleSpan (sb : StatsBucket) (s : Span) (env : string)
    (aggregators : list string) : StatsBucket :=
  let k := key_of s env aggregators in
  let c := default {| Hits := 0; Errors := 0; DurationSum := 0 |} (Counts sb !! k) in
  let d := default {| Samples := [] |} (Distributions sb !! k) in
  {| BStart := BStart sb;
     BDuration := BDuration sb;
     Counts := <[k := count_span s c]> (Counts sb);
     Distributions := <[k := {| Samples := Samples d ++ [Duration s] |}]> (Distributions sb) |}.

(** *** Sublayers *)

Record Tag : Type := { TagName : string; TagValue : string }.

Record SublayerValue : Type := {
  Metric : string;
  Tag_ : Tag;
  Value : float
}.

























End model.

(** ** Package config *)

Module config.

(** The fields of [AgentConfig] the concentrator reads; the two durations
    are in nanoseconds. *)
Record AgentConfig : Type := {
  BucketInterval : Z;
  OldestSpanCutoff : Z;
  DefaultEnv : string;
  ExtraAggregators : list string
}.

End config.

(** ** The concentrator (src/agent/concentrator.go, package main) *)

Module agent.
Import model config.

Record Concentrator : Type := {
  buckets : gmap Z StatsBucket;
  conf : AgentConfig
}.

(** What [fmt.Errorf("rejecting late span, late by %ds", n)] carries. *)
Inductive error : Type :=
| LateSpan (late_by_seconds : Z).

(** [sort.Strings] on the extra aggregators. *)
Definition sortStrings (l : list string) : list string :=
  merge_sort (fun a b : string => Is_true (String.leb a b)) l.

Definition NewConcentrator (cf : AgentConfig) : Concentrator :=
  {| buckets := ∅;
     conf := {| BucketInterval := BucketInterval cf;
                OldestSpanCutoff := OldestSpanCutoff cf;
                DefaultEnv := DefaultEnv cf;
                ExtraAggregators := sortStrings (ExtraAggregators cf) |} |}.

(** [ts - ts%interval]; [None] is the division panic of a zero interval. *)
Definition roundToBucket (c : Concentrator) (ts : Z) : option Z :=
  r ← Int64.rem ts (BucketInterval (conf c));
  Some (Int64.sub ts r).

Definition late_span_counter : statsd.Call :=
  statsd.Count "trace_agent.concentrator.late_span" 1 [] 1%float.

(** The outcome of a method: its result, the concentrator after it and the
    statsd calls it made, or [None] when it panics. *)
Definition outcome (A : Type) : Type := option (A * Concentrator * list statsd.Call).

Definition HandleNewSpan (now : Z) (c : Concentrator) (s : Span) (env : string)
    : outcome (option error) :=
  let end_ := End s in
  if now >? Int64.add end_ (OldestSpanCutoff (conf c)) then
    late ← Int64.quot (Int64.sub now end_) 1000000000;
    Some (Some (LateSpan late), c, [late_span_counter])
  else
    bucketTs ← roundToBucket c end_;
    let b := match buckets c !! bucketTs with
             | Some b => b
             | None => NewStatsBucket bucketTs (BucketInterval (conf c))
             end in
    let b' := HandleSpan b s env (ExtraAggregators (conf c)) in
    Some (None, {| buckets := <[bucketTs := b']> (buckets c); conf := conf c |}, []).

(** [sortInts64]: ascending order. *)
Definition sortInts64 (a : list Z) : list Z := merge_sort Z.le a.

Definition distribution_histograms (b : StatsBucket) : list statsd.Call :=
  map (fun kd : AggrKey * Distribution =>
         statsd.Histogram "trace_agent.distribution.len"
           (Float64.of_int64 (Summary_N kd.2)) [] 1%float)
      (map_to_list (Distributions b)).

(** The zero value that indexing a Go map yields for a missing key. *)
Definition zero_bucket : StatsBucket :=
  {| BStart := 0; BDuration := 0; Counts := ∅; Distributions := ∅ |}.

(** The loop state of [Flush]: the buckets collected, the map, the calls. *)
Definition flush_state : Type :=
  (list StatsBucket * gmap Z StatsBucket * list statsd.Call)%type.

Definition flush_step (now cutoff lastBucketTs : Z) (st : flush_state) (ts : Z)
    : flush_state :=
  let '(sb, m, calls) := st in
  let bucket := default zero_bucket (m !! ts) in
  if (ts <? Int64.sub now cutoff) && (ts <? lastBucketTs) then
    (sb ++ [bucket], delete ts m, calls ++ distribution_histograms bucket)
  else st.

Definition Flush (now : Z) (c : Concentrator) : outcome (list StatsBucket) :=
  lastBucketTs ← roundToBucket c now;
  let keys := sortInts64 (map_to_list (buckets c)).*1 in
  let '(sb, m, calls) :=
    fold_left (flush_step now (OldestSpanCutoff (conf c)) lastBucketTs) keys
              ([], buckets c, []) in
  Some (sb, {| buckets := m; conf := conf c |}, calls).

(** Every bucket is stored under its own start timestamp. *)
Definition bucket_starts_ok (c : Concentrator) : Prop :=
  ∀ ts b, buckets c !! ts = Some b → BStart b = ts.

(** The bucket a span ending in the bucket of [ts] is aggregated into: the
    one stored under [ts], or a new one. *)
Definition target_bucket (c : Concentrator) (ts : Z) : StatsBucket :=
  default (NewStatsBucket ts (BucketInterval (conf c))) (buckets c !! ts).

Definition bucket_at (m : gmap Z StatsBucket) (ts : Z) : StatsBucket :=
  default zero_bucket (m !! ts).

(** The test of the loop of [Flush]. *)
Definition expired (now cutoff lastBucketTs ts : Z) : bool :=
  (ts <? Int64.sub now cutoff) && (ts <? lastBucketTs).

(** The condition of [Flush] in the words of the specification. *)
Definition flushable (now cutoff bucket_ns ts : Z) : Prop :=
  ts < now - cutoff ∧ ts < now / bucket_ns * bucket_ns.

(** *** The loop of [Flush] in closed form *)

(** The keys the loop of [Flush] deletes at the clock reading [now], in the
    order it visits them; [last] is the start of the bucket of [now]. *)
Definition flushed_keys (now : Z) (c : Concentrator) (last : Z) : list Z :=
  filter (λ ts, Is_true (expired now (OldestSpanCutoff (conf c)) last ts))
         (sortInts64 (map_to_list (buckets c)).*1).

(** How many distributions the buckets of a batch hold. *)
Definition distributions_flushed (sb : list StatsBucket) : nat :=
  sum_list ((λ b, size (Distributions b)) <$> sb).

(** A call [Histogram("trace_agent.distribution.len", n, nil, 1)]. *)
Definition is_distribution_len (call : statsd.Call) : Prop :=
  ∃ n, call = statsd.Histogram "trace_agent.distribution.len" n [] 1%float.

(** Every key of the bucket map is a multiple of the bucket interval. *)
Definition keys_aligned (c : Concentrator) : Prop :=
  ∀ ts, is_Some (buckets c !! ts) → (BucketInterval (conf c) | ts).

(** Every bucket of the map carries its key as its start and the bucket
    interval as its duration, and the key is a multiple of the interval. *)
Definition buckets_ok (c : Concentrator) : Prop :=
  ∀ ts b, buckets c !! ts = Some b →
    BStart b = ts
    ∧ BDuration b = BucketInterval (conf c)
    ∧ (BucketInterval (conf c) | ts).

(** A bucket as the concentrator hands it out: it starts at a multiple of
    the bucket interval and lasts one interval. *)
Definition bucket_ok (cf : AgentConfig) (b : StatsBucket) : Prop :=
  (BucketInterval cf | BStart b) ∧ BDuration b = BucketInterval cf.

(** *** [Run] *)

(** A loop whose body may panic: the first panic ends it. *)
Fixpoint fold_panic {A B : Type} (f : A → B → option A) (a : A) (l : list B)
    : option A :=
  match l with
  | [] => Some a
  | x :: l' => a' ← f a x; fold_panic f a' l'
  end.

Section RunLoop.

(** [Span.IsFlushMarker] and [Trace.GetEnv] are outside src: the loop is
    taken over any two functions in their place. *)
Variable IsFlushMarker : Span → bool.
Variable GetEnv : Trace → string.

(** The reading of [model.Now()] at its [k]-th call. *)
Variable clock : nat → Z.

(** The state of the loop of [Run]: the concentrator, how many times the
    clock was read, the batches sent on [out] (a receiver is assumed to
    take each one), the statsd calls made and the rejections logged. *)
Record run_state : Type := {
  rs_concentrator : Concentrator;
  rs_reads : nat;
  rs_out : list (list StatsBucket);
  rs_calls : list statsd.Call;
  rs_rejected : list (Span * error)
}.

(** [len(t) == 1 && t[0].IsFlushMarker()]. *)
Definition is_flush_signal (t : Trace) : bool :=
  match t with
  | [s] => IsFlushMarker s
  | _ => false
  end.

(** [c.out <- c.Flush()]. *)
Definition run_flush (st : run_state) : option run_state :=
  '(sb, c', calls) ← Flush (clock (rs_reads st)) (rs_concentrator st);
  Some {| rs_concentrator := c';
          rs_reads := S (rs_reads st);
          rs_out := rs_out st ++ [sb];
          rs_calls := rs_calls st ++ calls;
          rs_rejected := rs_rejected st |}.

(** The body of the loop over the spans of a trace: the error of
    [HandleNewSpan] is logged and the loop goes on. *)
Definition run_span (env : string) (st : run_state) (s : Span) : option run_state :=
  '(err, c', calls) ← HandleNewSpan (clock (rs_reads st)) (rs_concentrator st) s env;
  Some {| rs_concentrator := c';
          rs_reads := S (rs_reads st);
          rs_out := rs_out st;
          rs_calls := rs_calls st ++ calls;
          rs_rejected := match err with
                         | Some e => rs_rejected st ++ [(s, e)]
                         | None => rs_rejected st
                         end |}.

(** The body of the loop over the traces. *)
Definition run_trace (st : run_state) (t : Trace) : option run_state :=
  if is_flush_signal t then run_flush st
  else
    let env := GetEnv t in
    let env := if String.eqb env "" then DefaultEnv (conf (rs_concentrator st)) else env in
    fold_panic (run_span env) st t.

(** [Run] on the traces that [in] delivers before it is closed; the batches
    of the final state are what [out] carried when [Run] closes it. *)
Definition Run (c : Concentrator) (input : list Trace) : option run_state :=
  fold_panic run_trace
    {| rs_concentrator := c; rs_reads := 0; rs_out := []; rs_calls := [];
       rs_rejected := [] |}
    input.

(** How many traces of the input are flush signals, and how many spans the
    other traces hold. *)
Definition flush_signals (input : list Trace) : nat :=
  sum_list ((λ t, if is_flush_signal t then 1%nat else 0%nat) <$> input).

Definition spans_handled (input : list Trace) : nat :=
  sum_list ((λ t, if is_flush_signal t then 0%nat else length t) <$> input).

(** The counters of the loop: the configuration, the readings of the clock
    and the batches sent. *)
Definition run_progress (cf : AgentConfig) (reads batches : nat) (st : run_state) : Prop :=
  conf (rs_concentrator st) = cf
  ∧ rs_reads st = reads
  ∧ length (rs_out st) = batches.

End RunLoop.

End agent.

(** ** The sampler backend (src/agent/concentrator.go, package sampler) *)

Module sampler.

(** A signature is a 64-bit key; the scores map is a [gmap Z float]. *)
Abbreviation Signature := Z (only parsing).

(** The state of the [exit] channel, which is only ever closed. *)
Inductive chan : Type := Open | Closed.

Record Backend : Type := {
  scores : gmap Z float;
  totalScore : float;
  sampledScore : float;
  decayPeriod : Z;
  decayFactor : float;
  countScaleFactor : float;
  exit : chan
}.

(** Modelled from the spec: the constant [minSignatureScoreOffset] is
    declared outside src; the spec gives it as 0.01, which as a [float64]
    is the binary64 number nearest to it. *)
Definition minSignatureScoreOffset : float := 0x1.47ae147ae147bp-7%float.

(** [time.Duration.Seconds] of the Go library:
    [float64(d / Second) + float64(d % Second) / 1e9]. *)
Definition Seconds (d : Z) : float :=
  (Float64.of_int64 (Z.quot d 1000000000)
   + Float64.of_int64 (Z.rem d 1000000000) / 1000000000)%float.

Definition NewBackend (decayPeriod : Z) : Backend :=
  let decayFactor := 1.125%float in
  {| scores := ∅;
     totalScore := 0%float;
     sampledScore := 0%float;
     decayPeriod := decayPeriod;
     decayFactor := decayFactor;
     countScaleFactor := ((decayFactor / (decayFactor - 1)) * Seconds decayPeriod)%float;
     exit := Open |}.

Definition set_exit (b : Backend) (e : chan) : Backend :=
  {| scores := scores b; totalScore := totalScore b; sampledScore := sampledScore b;
     decayPeriod := decayPeriod b; decayFactor := decayFactor b;
     countScaleFactor := countScaleFactor b; exit := e |}.

(** [close(ch)]: closing a closed channel panics ([None]). *)
Definition close (c : chan) : option chan :=
  match c with
  | Open => Some Closed
  | Closed => None
  end.

Definition Stop (b : Backend) : option Backend :=
  e ← close (exit b);
  Some (set_exit b e).

(** Indexing a Go map: the zero value for a missing key. *)
Definition score_of (m : gmap Z float) (sig : Signature) : float :=
  default 0%float (m !! sig).

Definition CountSignature (b : Backend) (signature : Signature) : Backend :=
  {| scores := <[signature := (score_of (scores b) signature + 1)%float]> (scores b);
     totalScore := (totalScore b + 1)%float;
     sampledScore := sampledScore b;
     decayPeriod := decayPeriod b; decayFactor := decayFactor b;
     countScaleFactor := countScaleFactor b; exit := exit b |}.

Definition CountSample (b : Backend) : Backend :=
  {| scores := scores b;
     totalScore := totalScore b;
     sampledScore := (sampledScore b + 1)%float;
     decayPeriod := decayPeriod b; decayFactor := decayFactor b;
     countScaleFactor := countScaleFactor b; exit := exit b |}.

(** The getters return their result together with the backend they leave. *)
Definition GetSignatureScore (b : Backend) (signature : Signature) : float * Backend :=
  ((score_of (scores b) signature / countScaleFactor b)%float, b).

Definition GetSampledScore (b : Backend) : float * Backend :=
  ((sampledScore b / countScaleFactor b)%float, b).

Definition GetTotalScore (b : Backend) : float * Backend :=
  ((totalScore b / countScaleFactor b)%float, b).

Definition GetUpperSampledScore (b : Backend) : float * Backend :=
  let '(score, b1) := GetSampledScore b in
  ((score * decayFactor b1)%float, b1).

Definition GetCardinality (b : Backend) : Z * Backend :=
  (Z.of_nat (size (scores b)), b).

(** One iteration of the loop of [DecayScore] at key [sig], on the map [m]
    as the earlier iterations left it. *)
Definition decay_step (decayFactor : float) (sig : Signature) (m : gmap Z float)
    : gmap Z float :=
  let score := score_of m sig in
  if (decayFactor * minSignatureScoreOffset <? score)%float
  then <[sig := (score_of m sig / decayFactor)%float]> m
  else delete sig m.

(** [for sig := range b.scores]: the keys of the map are visited once each,
    in an order Go leaves open; an iteration only touches its own key. *)
Definition DecayScore (b : Backend) : Backend :=
  {| scores := fold_left (fun m sig => decay_step (decayFactor b) sig m)
                         (map_to_list (scores b)).*1 (scores b);
     totalScore := (totalScore b / decayFactor b)%float;
     sampledScore := (sampledScore b / decayFactor b)%float;
     decayPeriod := decayPeriod b; decayFactor := decayFactor b;
     countScaleFactor := countScaleFactor b; exit := exit b |}.

(** The operations that change the scores of a backend; [Stop] only closes
    the [exit] channel, which no getter reads. *)
Inductive op : Type :=
| OpCountSignature (signature : Signature)
| OpCountSample
| OpDecayScore.

Definition apply_op (b : Backend) (o : op) : Backend :=
  match o with
  | OpCountSignature s => CountSignature b s
  | OpCountSample => CountSample b
  | OpDecayScore => DecayScore b
  end.

(** The backend after a sequence of calls on a fresh one. *)
Definition run (decayPeriod : Z) (ops : list op) : Backend :=
  fold_left apply_op ops (NewBackend decayPeriod).

(** The sum of all signature scores. *)
Definition sum_scores (b : Backend) : float :=
  map_fold (fun _ score acc => (acc + score)%float) 0%float (scores b).

(** A non-negative number: not NaN, and not below zero. *)
Definition nonneg (x : float) : Prop := (0 <=? x)%float = true.

(** What an iteration of [DecayScore] leaves of an entry of score [v]. *)
Definition decayed (df v : float) : option float :=
  if (df * minSignatureScoreOffset <? v)%float then Some (v / df)%float else None.

(** What every operation keeps true of a backend. *)
Definition backend_ok (b : Backend) : Prop :=
  decayFactor b = 1.125%float
  ∧ nonneg (totalScore b)
  ∧ nonneg (sampledScore b)
  ∧ map_Forall (λ _ v, nonneg v) (scores b).

(** [a] and [b] agree within the relative tolerance [eps]. *)
Definition within_tolerance (eps a b : float) : bool :=
  (abs (a - b) <=? eps * (abs a + abs b))%float.

End sampler.

(** ** The fixtures of src/model/sublayers_test.go *)

Module sublayers_test.
Import model.



(** [sortableSublayers.Less]. *)
Definition Less (a b : SublayerValue) : bool :=
  String.ltb (Metric a) (Metric b)
  || (String.eqb (Metric a) (Metric b)
      && String.ltb (TagValue (Tag_ a)) (TagValue (Tag_ b))).



Definition sublayer (metric tag_name tag_value : string) (value : float)
    : SublayerValue :=
  {| Metric := metric;
     Tag_ := {| TagName := tag_name; TagValue := tag_value |};
     Value := value |}.

(** The values the test expects of [ComputeSublayers], sorted. *)
Definition expected_sublayers : list SublayerValue :=
  [ sublayer "_sublayers.duration.by_service" "sublayer_service" "master-db" 199999000;
    sublayer "_sublayers.duration.by_service" "sublayer_service" "mcnulty"
             (1000000000 - 199999000 - 500000);
    sublayer "_sublayers.duration.by_service" "sublayer_service" "redis" 500000;
    sublayer "_sublayers.duration.by_type" "sublayer_type" "redis" 500000;
    sublayer "_sublayers.duration.by_type" "sublayer_type" "sql" 200000000;
    sublayer "_sublayers.duration.by_type" "sublayer_type" "web"
             (1000000000 - 200000000 - 500000);
    sublayer "_sublayers.span_count" "" "" 5 ]%float.

(** The metrics the test expects on the root. *)
Definition expectedMetrics : gmap string float :=
  list_to_map
    [ ("_sublayers.span_count", 5);
      ("_sublayers.duration.by_type.sublayer_type:web", 1000000000 - 200000000 - 500000);
      ("_sublayers.duration.by_type.sublayer_type:sql", 200000000);
      ("_sublayers.duration.by_type.sublayer_type:redis", 500000);
      ("_sublayers.duration.by_service.sublayer_service:mcnulty",
       1000000000 - 199999000 - 500000);
      ("_sublayers.duration.by_service.sublayer_service:master-db", 199999000);
      ("_sublayers.duration.by_service.sublayer_service:redis", 500000) ]%float.

(** The values of the sweep on the same trace, sorted: the time of the
    fifth span, which has no type, is under the empty type. *)
Definition swept_sublayers : list SublayerValue :=
  [ sublayer "_sublayers.duration.by_service" "sublayer_service" "master-db" 199999000;
    sublayer "_sublayers.duration.by_service" "sublayer_service" "mcnulty" 799501000;
    sublayer "_sublayers.duration.by_service" "sublayer_service" "redis" 500000;
    sublayer "_sublayers.duration.by_type" "sublayer_type" "" 700000;
    sublayer "_sublayers.duration.by_type" "sublayer_type" "redis" 500000;
    sublayer "_sublayers.duration.by_type" "sublayer_type" "sql" 200000000;
    sublayer "_sublayers.duration.by_type" "sublayer_type" "web" 798800000;
    sublayer "_sublayers.span_count" "" "" 5 ]%float.



(** The value of a metric for a tag value, if the list has one. *)
Definition sublayer_value (metric tag_value : string) (l : list SublayerValue)
    : option float :=
  Value <$> head (filter (λ v, Metric v = metric ∧ TagValue (Tag_ v) = tag_value) l).

End sublayers_test.

(** ** Binary64 numbers as [SpecFloat] describes them *)

Module binary64.

(** What [shr] computes on a non-negative mantissa [m] at exponent [e] for a
    shift of [n] digits: the mantissa [m'] and the exponent [e']. *)
Definition shifted (m e n m' e' : Z) : Prop :=
  (n <= 0 ∧ m' = m ∧ e' = e) ∨ (0 < n ∧ m' = m / 2 ^ n ∧ e' = e + n).

(** Zero, a positive finite number or plus infinity. *)
Definition nonneg_sf (x : spec_float) : bool :=
  match x with
  | S754_zero _ | S754_finite false _ _ | S754_infinity false => true
  | _ => false
  end.

(** The decay factor 1.125 as a binary64 number: 9 * 2^49 * 2^-52. *)
Definition nine_eighths : spec_float := S754_finite false 5066549580791808 (-52).

(** The value of a positive finite binary64 number of mantissa [m] and
    exponent [e], scaled by 2^1074 to an integer. *)
Definition scaled_value (m : positive) (e : Z) : Z := Z.pos m * 2 ^ (e + 1074).

(** A positive normal number whose exponent lies between [lo] and [hi]. *)
Definition normal_pos (lo hi : Z) (x : spec_float) : Prop :=
  ∃ m e, x = S754_finite false m e ∧ 2 ^ 52 <= Z.pos m < 2 ^ 53 ∧ lo <= e <= hi.

End binary64.

(** ** The eviction test in the words of the specification *)

Module eviction.
Import sampler binary64.

(** In the words of the specification: the score after the decay, that is the
    score divided by the decay factor 9/8 as a real number, is at most
    [minSignatureScoreOffset]. Scores are numbers that are not negative. *)
Definition post_decay_at_most_offset (v : float) : Prop :=
  match Prim2SF v, Prim2SF minSignatureScoreOffset with
  | S754_zero _, _ => True
  | S754_finite false mv ev, S754_finite false mo eo =>
      8 * scaled_value mv ev <= 9 * scaled_value mo eo
  | _, _ => False
  end.

(** A score as the scores map holds it: a positive normal number below
    2^57. *)
Definition score_normal (v : float) : Prop := normal_pos (-60) 3 (Prim2SF v).

Definition scores_normal (b : Backend) : Prop :=
  decayFactor b = 1.125%float ∧ map_Forall (λ _ v, score_normal v) (scores b).

(** A measure of an entry of the scores map that every decay tick lowers: 0
    for a missing entry, and for a score its place in the order of the
    positive binary64 numbers (the exponent, then the mantissa). *)
Definition decay_rank (v : option float) : Z :=
  match v with
  | Some v =>
      match Prim2SF v with
      | S754_finite false m e => 1 + (e + 60) * 2 ^ 53 + Z.pos m
      | _ => 1
      end
  | None => 0
  end.

End eviction.

(** ** Sample inputs *)

Module samples.
Import model config agent sampler.

(** Buckets of ten seconds, a cutoff of sixty seconds. *)
Definition sample_conf : AgentConfig :=
  {| BucketInterval := 10000000000; OldestSpanCutoff := 60000000000;
     DefaultEnv := "none"; ExtraAggregators := [] |}.

(** A clock reading in November 2023. *)
Definition sample_now : Z := 1700000000000000000.

Definition span_at (start duration : Z) : Span :=
  {| TraceID := 1; SpanID := 1; ParentID := 0; Service := "mcnulty";
     Name := "query"; Resource := "GET /"; Type_ := "web"; Start := start;
     Duration := duration; Env := ""; Error := 0; Metrics := None |}.

(** A span that ends at the largest [int64] timestamp. *)
Definition far_future_span : Span := span_at Int64.max_int 0.

(** A span that ended sixty-one seconds ago. *)
Definition late_span : Span := span_at (sample_now - 61000000000) 0.

(** A span that ended five seconds ago. *)
Definition recent_span : Span := span_at (sample_now - 5000000007) 7.

(** The concentrator after the recent span. *)
Definition sample_concentrator : Concentrator :=
  match HandleNewSpan sample_now (NewConcentrator sample_conf) recent_span "prod" with
  | Some (_, c, _) => c
  | None => NewConcentrator sample_conf
  end.

(** A decay period of one second. *)
Definition one_second : Z := 1000000000.

(** One signature counted once, then forty decay ticks. *)
Definition count_then_decay : list op :=
  OpCountSignature 7 :: repeat OpDecayScore 40.

(** The tolerance scenario S4 of the specification uses. *)
Definition tolerance : float := 0x1.12e0be826d695p-30%float.

(** Two minutes after the sample clock. *)
Definition flush_clock : Z := sample_now + 120000000000.

(** A run of the concentrator: a flush marker is a span of identifier 0, the
    env of a trace is the env of its first span, the clock advances by a
    hundred seconds at each reading. *)
Definition sample_marker (s : Span) : bool := SpanID s =? 0.

Definition sample_env (t : Trace) : string :=
  match t with
  | s :: _ => Env s
  | [] => ""
  end.

Definition sample_clock (k : nat) : Z := sample_now + Z.of_nat k * 100000000000.

Definition marker_span : Span :=
  {| TraceID := 0; SpanID := 0; ParentID := 0; Service := ""; Name := "";
     Resource := ""; Type_ := ""; Start := 0; Duration := 0; Env := ""; Error := 0;
     Metrics := None |}.

Definition sample_input : list Trace :=
  [ [recent_span; late_span]; [marker_span]; [marker_span];
    [span_at (sample_now + 395000000000) 5] ].

End samples.

(** * Facts *)

Import model config agent sampler binary64 eviction samples.

(** ** 64-bit arithmetic *)

Section Int64Facts.
Import Int64.

Lemma wrap_in_range z : in_range (wrap z).
Proof.
  unfold in_range, wrap, min_int, max_int.
  pose proof (Z.mod_pos_bound (z + 2 ^ 63) (2 ^ 64)). lia.
Qed.

Lemma wrap_id z : in_range z → wrap z = z.
Proof.
  unfold in_range, wrap, min_int, max_int. intros Hz.
  rewrite Z.mod_small; lia.
Qed.

Lemma wrap_above z : max_int < z → z <= max_int + 2 ^ 64 → wrap z = z - 2 ^ 64.
Proof.
  unfold wrap, max_int. intros H1 H2.
  replace (z + 2 ^ 63) with ((z - 2 ^ 64 + 2 ^ 63) + 1 * 2 ^ 64) by lia.
  rewrite Z_mod_plus_full, Z.mod_small; lia.
Qed.

End Int64Facts.

Lemma End_in_range s : Int64.in_range (End s).
Proof. apply wrap_in_range. Qed.

(** ** The concentrator: [HandleNewSpan] *)

Section HandleNewSpanFacts.
Variables (now : Z) (c : Concentrator) (s : Span) (env : string).

Lemma HandleNewSpan_late :
  (now >? Int64.add (End s) (OldestSpanCutoff (conf c))) = true →
  HandleNewSpan now c s env =
    Some (Some (LateSpan (Int64.wrap (Z.quot (Int64.sub now (End s)) 1000000000))),
          c, [late_span_counter]).
Proof. intros H. unfold HandleNewSpan. rewrite H. reflexivity. Qed.

Lemma HandleNewSpan_recent :
  (now >? Int64.add (End s) (OldestSpanCutoff (conf c))) = false →
  BucketInterval (conf c) ≠ 0 →
  let ts := Int64.sub (End s) (Z.rem (End s) (BucketInterval (conf c))) in
  HandleNewSpan now c s env =
    Some (None,
          {| buckets := <[ts := HandleSpan (target_bucket c ts) s env
                                  (ExtraAggregators (conf c))]> (buckets c);
             conf := conf c |}, []).
Proof.
  intros H Hb ts. unfold HandleNewSpan, roundToBucket, Int64.rem. rewrite H.
  destruct (Z.eqb_spec (BucketInterval (conf c)) 0) as [|_]; [done|].
  simpl. unfold target_bucket. fold ts. by destruct (buckets c !! ts).
Qed.

(** Where the sum [End + cutoff] stays inside [int64], the test of the code
    is the lateness test on the integers. *)
Lemma late_test_exact :
  Int64.in_range (End s + OldestSpanCutoff (conf c)) →
  (now >? Int64.add (End s) (OldestSpanCutoff (conf c))) = true ↔
  now - End s > OldestSpanCutoff (conf c).
Proof.
  intros Hr. unfold Int64.add. rewrite (wrap_id _ Hr).
  rewrite Z.gtb_gt. lia.
Qed.

(** A clock past the cutoff accepts no span that ends before the epoch. *)
Lemma accepted_End_nonneg :
  0 <= OldestSpanCutoff (conf c) <= now → now <= Int64.max_int →
  (now >? Int64.add (End s) (OldestSpanCutoff (conf c))) = false →
  0 <= End s ∧ now - End s <= OldestSpanCutoff (conf c).
Proof.
  intros Hc Hn H. pose proof (End_in_range s) as He.
  unfold Int64.in_range, Int64.min_int, Int64.max_int in *.
  assert (Hle : now <= Int64.add (End s) (OldestSpanCutoff (conf c))).
  { destruct (Z.gtb_spec now (Int64.add (End s) (OldestSpanCutoff (conf c)))); [done|lia]. }
  unfold Int64.add in Hle.
  destruct (Z_le_gt_dec (End s + OldestSpanCutoff (conf c)) Int64.max_int) as [Hs|Hs].
  - rewrite wrap_id in Hle; unfold Int64.in_range, Int64.min_int, Int64.max_int in *; lia.
  - rewrite wrap_above in Hle; unfold Int64.max_int in *; lia.
Qed.
End HandleNewSpanFacts.

Lemma round_nonneg (b ts : Z) :
  0 < b → 0 <= ts <= Int64.max_int →
  Int64.sub ts (Z.rem ts b) = ts - ts mod b.
Proof.
  intros Hb Hts. rewrite Z.rem_mod_nonneg by lia.
  pose proof (Z.mod_pos_bound ts b Hb).
  pose proof (Z.mod_le ts b ltac:(lia) Hb).
  unfold Int64.sub. apply wrap_id.
  unfold Int64.in_range, Int64.min_int, Int64.max_int in *. lia.
Qed.

Lemma HandleSpan_BStart b s env aggs : BStart (HandleSpan b s env aggs) = BStart b.
Proof. reflexivity. Qed.

(** X1. The lateness gate where [End + cutoff] does not leave [int64]: the
    span is rejected, with the counter emitted and the concentrator unchanged,
    exactly when [now - End > cutoff]; otherwise it is aggregated into the
    bucket of [End], created on demand. *)
Lemma HandleNewSpan_lateness_gate now c s env :
  BucketInterval (conf c) ≠ 0 →
  Int64.in_range (End s + OldestSpanCutoff (conf c)) →
  (now - End s > OldestSpanCutoff (conf c) →
     ∃ late, HandleNewSpan now c s env =
               Some (Some (LateSpan late), c, [late_span_counter]))
  ∧ (¬ now - End s > OldestSpanCutoff (conf c) →
     let ts := Int64.sub (End s) (Z.rem (End s) (BucketInterval (conf c))) in
     HandleNewSpan now c s env =
       Some (None,
             {| buckets := <[ts := HandleSpan (target_bucket c ts) s env
                                     (ExtraAggregators (conf c))]> (buckets c);
                conf := conf c |}, [])).
Proof.
  intros Hb Hr. pose proof (late_test_exact now c s Hr) as Hlate. split.
  - intros H%Hlate. eexists. by apply HandleNewSpan_late.
  - intros H. apply HandleNewSpan_recent; [|done].
    destruct (now >? _); [|done]. exfalso. apply H, Hlate. done.
Qed.

(** Scenario S2: with a cutoff of sixty seconds, a span that ended sixty-one
    seconds ago is rejected and the concentrator is left as it was. *)
Lemma HandleNewSpan_lateness_gate_witness :
  ∃ late, HandleNewSpan sample_now (NewConcentrator sample_conf) late_span "prod"
          = Some (Some (LateSpan late), NewConcentrator sample_conf, [late_span_counter]).
Proof.
  destruct (HandleNewSpan_lateness_gate sample_now (NewConcentrator sample_conf)
              late_span "prod") as [Hlate _].
  - discriminate.
  - split; vm_compute; discriminate.
  - apply Hlate. reflexivity.
Defined.

(** C1, at the input where the code leaves it. A span that ends at the largest
    [int64] timestamp is not late ([now - End] is negative), yet the sum
    [End + cutoff] wraps around to a negative number and [HandleNewSpan]
    rejects the span as late, by a negative number of seconds. *)
Theorem HandleNewSpan_far_future_span_rejected :
  HandleNewSpan sample_now (NewConcentrator sample_conf) far_future_span "prod"
    = Some (Some (LateSpan (-7523372036)), NewConcentrator sample_conf,
            [late_span_counter])
  ∧ ¬ sample_now - End far_future_span > OldestSpanCutoff sample_conf.
Proof. split; [vm_compute; reflexivity|vm_compute; discriminate]. Qed.

Lemma NewConcentrator_starts_ok cf : bucket_starts_ok (NewConcentrator cf).
Proof. intros ts b. simpl. by rewrite lookup_empty. Qed.

Lemma HandleNewSpan_starts_ok now c s env r c' calls :
  bucket_starts_ok c →
  HandleNewSpan now c s env = Some (r, c', calls) →
  bucket_starts_ok c'.
Proof.
  intros Hok. unfold HandleNewSpan.
  destruct (now >? _).
  - simpl. intros [= _ <- _]. done.
  - unfold roundToBucket, Int64.rem.
    destruct (BucketInterval (conf c) =? 0); [done|]. simpl.
    intros [= _ <- _] ts b. simpl.
    destruct (decide (Int64.sub (End s) (End s `rem` BucketInterval (conf c)) = ts))
      as [<-|Hne].
    + rewrite lookup_insert_eq. intros [= <-]. rewrite HandleSpan_BStart.
      destruct (buckets c !! _) as [b0|] eqn:Hb0; [by apply Hok|done].
    + rewrite lookup_insert_ne by done. apply Hok.
Qed.

(** C3. Bucket containment: a span that [HandleNewSpan] accepts is aggregated
    into the bucket [B] stored under [End - End mod bucket_ns], whose start is
    that timestamp, so that [B.start <= End < B.start + bucket_ns]; every
    other bucket is left as it was. This holds for every span, whatever its
    timestamps, under a positive bucket interval and a clock that reads at
    least the cutoff. *)
Theorem HandleNewSpan_bucket_containment now c s env c' calls :
  0 < BucketInterval (conf c) →
  0 <= OldestSpanCutoff (conf c) <= now →
  now <= Int64.max_int →
  bucket_starts_ok c →
  HandleNewSpan now c s env = Some (None, c', calls) →
  ∃ B, buckets c' !! (End s - End s mod BucketInterval (conf c)) = Some B
       ∧ B = HandleSpan (target_bucket c (End s - End s mod BucketInterval (conf c)))
                        s env (ExtraAggregators (conf c))
       ∧ BStart B = End s - End s mod BucketInterval (conf c)
       ∧ BStart B <= End s < BStart B + BucketInterval (conf c)
       ∧ ∀ ts, ts ≠ BStart B → buckets c' !! ts = buckets c !! ts.
Proof.
  intros Hb Hc Hn Hok Hrun.
  destruct (now >? Int64.add (End s) (OldestSpanCutoff (conf c))) eqn:Hgate.
  { rewrite (HandleNewSpan_late _ _ _ _ Hgate) in Hrun. discriminate. }
  destruct (accepted_End_nonneg now c s Hc Hn Hgate) as [Hend _].
  pose proof (End_in_range s) as [_ Hmax].
  rewrite HandleNewSpan_recent in Hrun by (done || lia).
  rewrite (round_nonneg _ _ Hb (conj Hend Hmax)) in Hrun.
  injection Hrun as <- _.
  set (ts := End s - End s mod BucketInterval (conf c)).
  assert (Hstart : BStart (target_bucket c ts) = ts).
  { unfold target_bucket. destruct (buckets c !! ts) as [b|] eqn:Hbk; [by apply Hok|done]. }
  pose proof (Z.mod_pos_bound (End s) _ Hb).
  eexists. split; [apply lookup_insert_eq|]. split; [done|].
  rewrite HandleSpan_BStart, Hstart. split; [done|]. split; [unfold ts; lia|].
  intros ts' Hne. simpl. by rewrite lookup_insert_ne.
Qed.

(** The recent span, handed to a fresh concentrator at the sample clock, lands
    in the bucket that starts at 1699999990000000000. *)
Lemma HandleNewSpan_bucket_containment_witness :
  ∃ B, buckets sample_concentrator !! 1699999990000000000 = Some B
       ∧ BStart B = 1699999990000000000
       ∧ BStart B <= End recent_span < BStart B + 10000000000.
Proof.
  destruct (HandleNewSpan_bucket_containment sample_now (NewConcentrator sample_conf)
              recent_span "prod" sample_concentrator [])
    as (B & HB & _ & Hstart & Hin & _).
  - simpl. lia.
  - simpl. unfold sample_now. lia.
  - unfold sample_now, Int64.max_int. lia.
  - apply NewConcentrator_starts_ok.
  - vm_compute. reflexivity.
  - exists B. split; [exact HB|]. split; [exact Hstart|exact Hin].
Defined.

(** ** The concentrator: [Flush] *)

Section FlushFacts.
Variables (now cutoff last : Z).

Lemma bucket_at_delete m k (ks : list Z) :
  k ∉ ks → bucket_at (delete k m) <$> ks = bucket_at m <$> ks.
Proof.
  intros Hk. apply Forall_fmap_ext, Forall_forall. intros ts Hts.
  unfold bucket_at. rewrite lookup_delete_ne; [done|]. intros ->. done.
Qed.

(** The loop of [Flush] over distinct keys: the expired keys are deleted in
    order, and the bucket collected at a key is the one the map held. *)
Lemma flush_loop ks :
  NoDup ks → ∀ sb m calls,
  fold_left (flush_step now cutoff last) ks (sb, m, calls) =
    (sb ++ (bucket_at m <$> filter (λ ts, Is_true (expired now cutoff last ts)) ks),
     foldr delete m (filter (λ ts, Is_true (expired now cutoff last ts)) ks),
     calls ++ mjoin ((λ ts, distribution_histograms (bucket_at m ts))
                        <$> filter (λ ts, Is_true (expired now cutoff last ts)) ks)).
Proof.
  induction 1 as [|k ks Hk Hnd IH]; intros sb m calls.
  - simpl. by rewrite !app_nil_r.
  - cbn [fold_left]. unfold flush_step at 2.
    fold (expired now cutoff last k). fold (bucket_at m k).
    rewrite filter_cons. destruct (decide (Is_true (expired now cutoff last k))) as [He|He].
    + apply Is_true_eq_true in He as He'. rewrite He'. rewrite IH.
      assert (Hk' : k ∉ filter (λ ts, Is_true (expired now cutoff last ts)) ks).
      { rewrite list_elem_of_filter. tauto. }
      rewrite (bucket_at_delete _ _ _ Hk'). simpl.
      rewrite <- !app_assoc. simpl. rewrite delete_foldr_delete.
      do 4 f_equal.
      apply Forall_fmap_ext, Forall_forall. intros ts Hts.
      unfold bucket_at. rewrite lookup_delete_ne; [done|]. intros ->. done.
    + apply negb_prop_intro, Is_true_eq_true, negb_true_iff in He as He'.
      rewrite He'. apply IH.
Qed.
End FlushFacts.

Lemma strictly_sorted (l : list Z) :
  StronglySorted Z.le l → NoDup l → StronglySorted Z.lt l.
Proof.
  induction 1 as [|x l Hs IH Hall]; intros Hnd; [constructor|].
  apply NoDup_cons in Hnd as [Hx Hnd]. constructor; [auto|].
  rewrite Forall_forall in Hall |- *. intros y Hy.
  specialize (Hall y Hy). assert (x ≠ y) by (intros ->; done). lia.
Qed.

Lemma StronglySorted_filter_lt (P : Z → Prop) `{!∀ x, Decision (P x)} (l : list Z) :
  StronglySorted Z.lt l → StronglySorted Z.lt (filter P l).
Proof.
  induction 1 as [|x l Hs IH Hall]; [constructor|].
  rewrite filter_cons. destruct (decide (P x)); [|done].
  constructor; [done|]. rewrite Forall_forall in Hall |- *.
  intros y [_ Hy]%list_elem_of_filter. auto.
Qed.

(** Under a clock and a cutoff that are not negative, the test of the loop is
    the condition of the specification. *)
Lemma expired_flushable now cutoff bucket_ns ts :
  0 < bucket_ns → 0 <= cutoff <= Int64.max_int → 0 <= now <= Int64.max_int →
  Is_true (expired now cutoff (Int64.sub now (Z.rem now bucket_ns)) ts) ↔
  flushable now cutoff bucket_ns ts.
Proof.
  intros Hb Hc Hn. unfold expired, flushable.
  rewrite (round_nonneg _ _ Hb Hn).
  unfold Int64.sub at 1. rewrite wrap_id
    by (unfold Int64.in_range, Int64.min_int, Int64.max_int in *; lia).
  rewrite andb_True, !Is_true_true, !Z.ltb_lt.
  pose proof (Z.mod_eq now bucket_ns ltac:(lia)).
  assert (now - now mod bucket_ns = now / bucket_ns * bucket_ns) as -> by lia.
  done.
Qed.

Lemma Flush_starts_ok now c sb c' calls :
  bucket_starts_ok c →
  Flush now c = Some (sb, c', calls) →
  bucket_starts_ok c'.
Proof.
  intros Hok. unfold Flush.
  destruct (roundToBucket c now) as [last|]; [|done]. simpl.
  rewrite flush_loop.
  - intros [= _ <- _] ts b. simpl. rewrite lookup_foldr_delete_Some.
    intros [_ Hb]. by apply Hok.
  - unfold sortInts64. rewrite merge_sort_Permutation. apply NoDup_fst_map_to_list.
Qed.

(** C2. [Flush] removes from the bucket map and returns exactly the buckets
    whose start [ts] satisfies [ts < now - cutoff] and
    [ts < floor(now / bucket_ns) * bucket_ns]: their keys [ks], in strictly
    ascending order, are the flushable keys of the map, the returned list
    holds the buckets stored under them in that order (so its start
    timestamps ascend), these keys are gone from the map afterwards and every
    other key keeps its bucket, so the remaining keys are a subset of the
    former ones. The bucket interval is positive, the cutoff and the clock
    are not negative. *)
Theorem Flush_expired_buckets (now : Z) (c : Concentrator) :
  0 < BucketInterval (conf c) →
  0 <= OldestSpanCutoff (conf c) <= Int64.max_int →
  0 <= now <= Int64.max_int →
  ∃ sb c' calls ks,
    Flush now c = Some (sb, c', calls)
    ∧ conf c' = conf c
    ∧ (∀ ts, ts ∈ ks ↔
         is_Some (buckets c !! ts)
         ∧ flushable now (OldestSpanCutoff (conf c)) (BucketInterval (conf c)) ts)
    ∧ StronglySorted Z.lt ks
    ∧ Forall2 (λ ts b, buckets c !! ts = Some b) ks sb
    ∧ (∀ ts, ts ∈ ks → buckets c' !! ts = None)
    ∧ (∀ ts, ts ∉ ks → buckets c' !! ts = buckets c !! ts)
    ∧ dom (buckets c') ⊆ dom (buckets c)
    ∧ (bucket_starts_ok c → BStart <$> sb = ks).
Proof.
  intros Hb Hc Hn.
  set (cutoff := OldestSpanCutoff (conf c)).
  set (bint := BucketInterval (conf c)).
  set (last := Int64.sub now (Z.rem now bint)).
  set (keys := sortInts64 (map_to_list (buckets c)).*1).
  set (ks := filter (λ ts, Is_true (expired now cutoff last ts)) keys).
  assert (Hperm : keys ≡ₚ (map_to_list (buckets c)).*1)
    by apply merge_sort_Permutation.
  assert (Hnd : NoDup keys).
  { rewrite Hperm. apply NoDup_fst_map_to_list. }
  assert (Hkeys : ∀ ts, ts ∈ keys ↔ is_Some (buckets c !! ts)).
  { intros ts. rewrite Hperm, list_elem_of_fmap. split.
    - intros [[k b] [-> Hin%elem_of_map_to_list]]. eauto.
    - intros [b Hbk]. exists (ts, b). split; [done|]. by apply elem_of_map_to_list. }
  assert (Hks : ∀ ts, ts ∈ ks ↔ is_Some (buckets c !! ts) ∧ flushable now cutoff bint ts).
  { intros ts. unfold ks. rewrite list_elem_of_filter, Hkeys.
    pose proof (expired_flushable now cutoff bint ts Hb Hc Hn) as He.
    fold last in He. rewrite He. tauto. }
  exists (bucket_at (buckets c) <$> ks),
         {| buckets := foldr delete (buckets c) ks; conf := conf c |},
         (mjoin ((λ ts, distribution_histograms (bucket_at (buckets c) ts)) <$> ks)),
         ks.
  split.
  { unfold Flush, roundToBucket, Int64.rem. fold bint.
    destruct (Z.eqb_spec bint 0) as [|_]; [lia|]. simpl. fold last keys cutoff.
    rewrite (flush_loop now cutoff last keys Hnd). fold ks. by rewrite !app_nil_l. }
  split; [done|]. split; [done|]. split.
  { apply StronglySorted_filter_lt. apply strictly_sorted; [|exact Hnd].
    apply (StronglySorted_merge_sort Z.le). }
  split.
  { apply Forall2_fmap_r, Forall_Forall2_diag, Forall_forall.
    intros ts [[b Hbk] _]%Hks. unfold bucket_at, compose. by rewrite Hbk. }
  split; [intros ts Hts; simpl; by apply lookup_foldr_delete|].
  split; [intros ts Hts; simpl; by apply lookup_foldr_delete_not_elem_of|].
  split.
  { simpl. intros ts [b Hbk]%elem_of_dom. apply lookup_foldr_delete_Some in Hbk as [_ Hbk].
    by apply elem_of_dom_2 in Hbk. }
  intros Hok. rewrite <- list_fmap_compose.
  rewrite <- (list_fmap_id ks) at 2. apply Forall_fmap_ext, Forall_forall.
  intros ts [[b Hbk] _]%Hks. simpl. unfold bucket_at. rewrite Hbk. simpl. eauto.
Qed.

(** Two minutes after the recent span, [Flush] on the sample concentrator. *)
Lemma Flush_expired_buckets_witness :
  ∃ sb c' calls ks,
    Flush (sample_now + 120000000000) sample_concentrator = Some (sb, c', calls)
    ∧ conf c' = conf sample_concentrator
    ∧ (∀ ts, ts ∈ ks ↔
         is_Some (buckets sample_concentrator !! ts)
         ∧ flushable (sample_now + 120000000000) 60000000000 10000000000 ts)
    ∧ StronglySorted Z.lt ks
    ∧ Forall2 (λ ts b, buckets sample_concentrator !! ts = Some b) ks sb
    ∧ (∀ ts, ts ∈ ks → buckets c' !! ts = None)
    ∧ (∀ ts, ts ∉ ks → buckets c' !! ts = buckets sample_concentrator !! ts)
    ∧ dom (buckets c') ⊆ dom (buckets sample_concentrator)
    ∧ (bucket_starts_ok sample_concentrator → BStart <$> sb = ks).
Proof.
  apply (Flush_expired_buckets (sample_now + 120000000000) sample_concentrator).
  - vm_compute. reflexivity.
  - split; vm_compute; discriminate.
  - split; vm_compute; discriminate.
Defined.

(** ** The concentrator: rounding, panics and frames *)

Lemma roundToBucket_Some c ts :
  BucketInterval (conf c) ≠ 0 →
  roundToBucket c ts = Some (Int64.sub ts (Z.rem ts (BucketInterval (conf c)))).
Proof.
  intros Hb. unfold roundToBucket, Int64.rem.
  by destruct (Z.eqb_spec (BucketInterval (conf c)) 0).
Qed.

(** [ts - ts % b] never leaves [int64]: it is [b] times the truncated
    quotient, which lies between 0 and [ts]. *)
Lemma round_quot (b ts : Z) :
  b ≠ 0 → Int64.in_range ts → Int64.sub ts (Z.rem ts b) = b * Z.quot ts b.
Proof.
  intros Hb Hts. pose proof (Z.quot_rem' ts b) as Hqr.
  unfold Int64.sub. replace (ts - Z.rem ts b) with (b * Z.quot ts b) by lia.
  apply wrap_id. unfold Int64.in_range, Int64.min_int, Int64.max_int in *.
  destruct (Z_le_gt_dec 0 ts).
  - pose proof (Z.mul_quot_le ts b ltac:(lia) Hb). lia.
  - pose proof (Z.mul_quot_ge ts b ltac:(lia) Hb). lia.
Qed.

(** X2. [roundToBucket] rounds toward zero. For a bucket interval that is not
    zero and any [int64] timestamp, it returns a multiple of the interval that
    is less than one interval away from the timestamp and lies between 0 and
    the timestamp: at or below a timestamp that is not negative, at or above
    one that is (a time before the epoch is rounded up, not down). The result
    is a fixed point, and the subtraction never wraps around. *)
Theorem roundToBucket_toward_zero (c : Concentrator) (ts : Z) :
  BucketInterval (conf c) ≠ 0 →
  Int64.in_range ts →
  ∃ r, roundToBucket c ts = Some r
       ∧ (BucketInterval (conf c) | r)
       ∧ Z.abs (ts - r) < Z.abs (BucketInterval (conf c))
       ∧ (0 <= ts → 0 <= r <= ts)
       ∧ (ts <= 0 → ts <= r <= 0)
       ∧ roundToBucket c r = Some r.
Proof.
  intros Hb Hts. set (b := BucketInterval (conf c)) in *.
  pose proof (Z.quot_rem' ts b) as Hqr.
  exists (b * Z.quot ts b).
  split. { rewrite roundToBucket_Some by done. fold b. by rewrite round_quot. }
  split. { exists (Z.quot ts b). lia. }
  split. { pose proof (Z.rem_bound_abs ts b Hb). lia. }
  split. { intros H. apply Z.mul_quot_le; lia. }
  split. { intros H. apply Z.mul_quot_ge; lia. }
  rewrite roundToBucket_Some by done. fold b.
  rewrite (Z.mul_comm b), Z.rem_mul by done.
  unfold Int64.sub. rewrite Z.sub_0_r, wrap_id; [done|].
  rewrite Z.mul_comm, <- round_quot by done. apply wrap_in_range.
Qed.

(** With buckets of ten seconds, seven nanoseconds before the epoch round up
    to the epoch. *)
Lemma roundToBucket_toward_zero_witness :
  ∃ r, roundToBucket (NewConcentrator sample_conf) (-7) = Some r
       ∧ (10000000000 | r)
       ∧ Z.abs (-7 - r) < Z.abs 10000000000
       ∧ -7 <= r <= 0
       ∧ roundToBucket (NewConcentrator sample_conf) r = Some r.
Proof.
  destruct (roundToBucket_toward_zero (NewConcentrator sample_conf) (-7))
    as (r & H1 & H2 & H3 & _ & H5 & H6).
  - simpl. lia.
  - unfold Int64.in_range, Int64.min_int, Int64.max_int. lia.
  - exists r. repeat split; try done; apply H5; lia.
Defined.

(** X3. The only panic of the concentrator is the division by a zero bucket
    interval: [Flush] panics exactly when the interval is zero, whatever the
    clock and the buckets, and [HandleNewSpan] panics exactly when the
    interval is zero and the span passes the lateness test (a late span is
    rejected before the bucket is computed). *)
Theorem zero_interval_panics (now : Z) (c : Concentrator) (s : Span) (env : string) :
  (Flush now c = None ↔ BucketInterval (conf c) = 0)
  ∧ (HandleNewSpan now c s env = None ↔
       BucketInterval (conf c) = 0
       ∧ (now >? Int64.add (End s) (OldestSpanCutoff (conf c))) = false).
Proof.
  split.
  - unfold Flush, roundToBucket, Int64.rem.
    destruct (Z.eqb_spec (BucketInterval (conf c)) 0) as [Hz|Hz]; simpl.
    + done.
    + destruct (fold_left _ _ _) as [[sb m] calls]. split; [done|]. intros; done.
  - unfold HandleNewSpan, roundToBucket, Int64.rem.
    destruct (now >? _); simpl.
    + split; [done|]. intros [_ ?]; done.
    + destruct (Z.eqb_spec (BucketInterval (conf c)) 0) as [Hz|Hz]; simpl.
      * done.
      * split; [done|]. intros [? _]; done.
Qed.

(** X4. [HandleNewSpan] never touches a bucket whose interval ended more than
    the cutoff ago: under a positive bucket interval and a clock that reads
    at least the cutoff, every bucket with [ts + interval <= now - cutoff] is
    after the call what it was before, whether the span is accepted or
    rejected. *)
Theorem HandleNewSpan_leaves_old_buckets now c s env r c' calls ts :
  0 < BucketInterval (conf c) →
  0 <= OldestSpanCutoff (conf c) <= now →
  now <= Int64.max_int →
  HandleNewSpan now c s env = Some (r, c', calls) →
  ts + BucketInterval (conf c) <= now - OldestSpanCutoff (conf c) →
  buckets c' !! ts = buckets c !! ts.
Proof.
  intros Hb Hc Hn Hrun Hold.
  destruct (now >? Int64.add (End s) (OldestSpanCutoff (conf c))) eqn:Hgate.
  { rewrite (HandleNewSpan_late _ _ _ _ Hgate) in Hrun. by injection Hrun as _ <- _. }
  destruct (accepted_End_nonneg now c s Hc Hn Hgate) as [Hend Hrecent].
  pose proof (End_in_range s) as [_ Hmax].
  rewrite HandleNewSpan_recent in Hrun by (done || lia).
  rewrite (round_nonneg _ _ Hb (conj Hend Hmax)) in Hrun.
  injection Hrun as _ <- _. simpl.
  pose proof (Z.mod_pos_bound (End s) _ Hb).
  apply lookup_insert_ne. lia.
Qed.

(** The recent span leaves the bucket of the epoch alone. *)
Lemma HandleNewSpan_leaves_old_buckets_witness :
  ∃ c', HandleNewSpan sample_now (NewConcentrator sample_conf) recent_span "prod"
          = Some (None, c', [])
        ∧ buckets c' !! 0 = buckets (NewConcentrator sample_conf) !! 0.
Proof.
  pose proof (HandleNewSpan_recent sample_now (NewConcentrator sample_conf)
                recent_span "prod" eq_refl) as Hh.
  specialize (Hh ltac:(discriminate)). cbv zeta in Hh.
  eexists. split; [exact Hh|].
  apply (HandleNewSpan_leaves_old_buckets sample_now (NewConcentrator sample_conf)
           recent_span "prod" _ _ _ 0) with (4 := Hh).
  - simpl. lia.
  - simpl. unfold sample_now. lia.
  - unfold sample_now, Int64.max_int. lia.
  - simpl. unfold sample_now. lia.
Defined.

Lemma HandleNewSpan_conf now c s env r c' calls :
  HandleNewSpan now c s env = Some (r, c', calls) → conf c' = conf c.
Proof.
  unfold HandleNewSpan. destruct (_ >? _).
  - simpl. by intros [= _ <- _].
  - destruct (roundToBucket c (End s)); [|done]. simpl. by intros [= _ <- _].
Qed.

Lemma HandleNewSpan_aligned now c s env r c' calls :
  keys_aligned c →
  HandleNewSpan now c s env = Some (r, c', calls) →
  keys_aligned c'.
Proof.
  intros Hok. unfold HandleNewSpan.
  destruct (now >? _).
  - simpl. intros [= _ <- _]. done.
  - unfold roundToBucket, Int64.rem.
    destruct (Z.eqb_spec (BucketInterval (conf c)) 0) as [|Hb]; [done|]. simpl.
    intros [= _ <- _] ts. simpl.
    destruct (decide (Int64.sub (End s) (End s `rem` BucketInterval (conf c)) = ts))
      as [<-|Hne].
    + intros _. rewrite round_quot by (done || apply End_in_range).
      by exists (Z.quot (End s) (BucketInterval (conf c))); lia.
    + rewrite lookup_insert_ne by done. apply Hok.
Qed.

Lemma HandleNewSpan_buckets_ok now c s env r c' calls :
  buckets_ok c →
  HandleNewSpan now c s env = Some (r, c', calls) →
  buckets_ok c'.
Proof.
  intros Hok. unfold HandleNewSpan.
  destruct (now >? _).
  - simpl. intros [= _ <- _]. done.
  - unfold roundToBucket, Int64.rem.
    destruct (Z.eqb_spec (BucketInterval (conf c)) 0) as [|Hb]; [done|]. simpl.
    intros [= _ <- _] ts b. simpl.
    destruct (decide (Int64.sub (End s) (End s `rem` BucketInterval (conf c)) = ts))
      as [<-|Hne].
    + rewrite lookup_insert_eq. intros [= <-]. simpl.
      destruct (buckets c !! _) as [b0|] eqn:Hb0.
      * by apply Hok.
      * simpl. split; [done|]. split; [done|].
        rewrite round_quot by (done || apply End_in_range).
        by exists (Z.quot (End s) (BucketInterval (conf c))); lia.
    + rewrite lookup_insert_ne by done. apply Hok.
Qed.

(** ** The concentrator: [Flush] in closed form *)

Lemma sorted_keys_NoDup (m : gmap Z StatsBucket) : NoDup (sortInts64 (map_to_list m).*1).
Proof. unfold sortInts64. rewrite merge_sort_Permutation. apply NoDup_fst_map_to_list. Qed.

Lemma sorted_keys_elem_of (m : gmap Z StatsBucket) ts :
  ts ∈ sortInts64 (map_to_list m).*1 ↔ is_Some (m !! ts).
Proof.
  unfold sortInts64. rewrite merge_sort_Permutation, list_elem_of_fmap. split.
  - intros [[k b] [-> Hin%elem_of_map_to_list]]. eauto.
  - intros [b Hbk]. exists (ts, b). split; [done|]. by apply elem_of_map_to_list.
Qed.

(** Whatever the clock, the cutoff and the buckets: [Flush] returns the
    buckets of the keys that pass the test of its loop, in ascending order
    of the keys, deletes these keys and emits the histograms of these
    buckets. *)
Lemma Flush_closed_form now c last :
  roundToBucket c now = Some last →
  Flush now c =
    Some (bucket_at (buckets c) <$> flushed_keys now c last,
          {| buckets := foldr delete (buckets c) (flushed_keys now c last);
             conf := conf c |},
          mjoin ((λ ts, distribution_histograms (bucket_at (buckets c) ts))
                   <$> flushed_keys now c last)).
Proof.
  intros Hl. unfold Flush. rewrite Hl. simpl.
  rewrite (flush_loop _ _ _ _ (sorted_keys_NoDup _)). by rewrite !app_nil_l.
Qed.

Lemma flushed_keys_elem_of now c last ts :
  ts ∈ flushed_keys now c last ↔
  is_Some (buckets c !! ts)
  ∧ Is_true (expired now (OldestSpanCutoff (conf c)) last ts).
Proof. unfold flushed_keys. rewrite list_elem_of_filter, sorted_keys_elem_of. tauto. Qed.

Lemma flushed_keys_NoDup now c last : NoDup (flushed_keys now c last).
Proof. apply NoDup_filter, sorted_keys_NoDup. Qed.

Lemma size_foldr_delete (m : gmap Z StatsBucket) (ks : list Z) :
  NoDup ks → (∀ k, k ∈ ks → is_Some (m !! k)) →
  (length ks + size (foldr delete m ks) = size m)%nat.
Proof.
  induction 1 as [|k ks Hk Hnd IH]; intros Hin; [done|].
  simpl.
  assert (Hk' : is_Some (foldr delete m ks !! k)).
  { destruct (Hin k) as [b Hb]; [left|]. exists b.
    by rewrite lookup_foldr_delete_not_elem_of. }
  rewrite <- IH by (intros; apply Hin; by right).
  rewrite (map_size_delete_Some k _ Hk').
  destruct Hk' as [b Hb].
  assert (size (foldr delete m ks) ≠ 0%nat); [|lia].
  intros Hz%map_size_empty_inv. rewrite Hz in Hb. by rewrite lookup_empty in Hb.
Qed.

Lemma Flush_conf now c sb c' calls :
  Flush now c = Some (sb, c', calls) → conf c' = conf c.
Proof.
  unfold Flush. destruct (roundToBucket c now); [|done]. simpl.
  destruct (fold_left _ _ _) as [[sb0 m] calls0]. by intros [= _ <- _].
Qed.

Lemma Flush_lookup now c sb c' calls ts b :
  Flush now c = Some (sb, c', calls) →
  buckets c' !! ts = Some b → buckets c !! ts = Some b.
Proof.
  intros Hf. destruct (roundToBucket c now) as [last|] eqn:Hl.
  2:{ unfold Flush in Hf. by rewrite Hl in Hf. }
  rewrite (Flush_closed_form _ _ _ Hl) in Hf. injection Hf as _ <- _.
  simpl. rewrite lookup_foldr_delete_Some. tauto.
Qed.

Lemma Flush_batch now c sb c' calls b :
  Flush now c = Some (sb, c', calls) →
  b ∈ sb → ∃ ts, buckets c !! ts = Some b.
Proof.
  intros Hf. destruct (roundToBucket c now) as [last|] eqn:Hl.
  2:{ unfold Flush in Hf. by rewrite Hl in Hf. }
  rewrite (Flush_closed_form _ _ _ Hl) in Hf. injection Hf as <- _ _.
  intros (ts & -> & [[b0 Hb] _]%flushed_keys_elem_of)%list_elem_of_fmap.
  exists ts. unfold bucket_at. by rewrite Hb.
Qed.

Lemma Flush_aligned now c sb c' calls :
  keys_aligned c → Flush now c = Some (sb, c', calls) → keys_aligned c'.
Proof.
  intros Hok Hf ts [b Hb]. rewrite (Flush_conf _ _ _ _ _ Hf).
  apply Hok. exists b. by eapply Flush_lookup.
Qed.

Lemma Flush_buckets_ok now c sb c' calls :
  buckets_ok c → Flush now c = Some (sb, c', calls) →
  buckets_ok c' ∧ Forall (bucket_ok (conf c)) sb.
Proof.
  intros Hok Hf. split.
  - intros ts b Hb. rewrite (Flush_conf _ _ _ _ _ Hf).
    apply Hok. by eapply Flush_lookup.
  - apply Forall_forall. intros b Hb.
    destruct (Flush_batch _ _ _ _ _ _ Hf Hb) as [ts Hts].
    destruct (Hok ts b Hts) as (Hs & Hd & Hdiv). split; [by rewrite Hs|done].
Qed.

(** X5. [Flush] loses no bucket and invents none, whatever the clock and the
    configuration: the configuration is unchanged, the map afterwards is a
    part of the map before, every bucket of the map before is either still in
    the map under its key or gone from it and in the returned list, and the
    returned buckets and the remaining ones add up to the buckets there
    were. *)
Theorem Flush_conserves_buckets now c sb c' calls :
  Flush now c = Some (sb, c', calls) →
  conf c' = conf c
  ∧ buckets c' ⊆ buckets c
  ∧ (∀ ts b, buckets c !! ts = Some b →
       buckets c' !! ts = Some b ∨ (buckets c' !! ts = None ∧ b ∈ sb))
  ∧ (length sb + size (buckets c') = size (buckets c))%nat.
Proof.
  intros Hf. destruct (roundToBucket c now) as [last|] eqn:Hl.
  2:{ unfold Flush in Hf. by rewrite Hl in Hf. }
  rewrite (Flush_closed_form _ _ _ Hl) in Hf. injection Hf as <- <- _.
  simpl. split; [done|]. split.
  { apply map_subseteq_spec. intros ts b [_ H]%lookup_foldr_delete_Some. done. }
  split.
  - intros ts b Hb. destruct (decide (ts ∈ flushed_keys now c last)) as [Hin|Hin].
    + right. split; [by apply lookup_foldr_delete|].
      apply list_elem_of_fmap. exists ts. split; [|done].
      unfold bucket_at. by rewrite Hb.
    + left. by rewrite lookup_foldr_delete_not_elem_of.
  - rewrite length_fmap. apply size_foldr_delete; [apply flushed_keys_NoDup|].
    intros k [H _]%flushed_keys_elem_of. done.
Qed.

(** Two minutes after the sample clock, which is the start of a bucket. *)
Lemma sample_last :
  roundToBucket sample_concentrator flush_clock = Some 1700000120000000000.
Proof. reflexivity. Qed.

(** [Flush] on the sample concentrator, two minutes later. *)
Lemma Flush_conserves_buckets_witness :
  ∃ sb c' calls,
    Flush flush_clock sample_concentrator = Some (sb, c', calls)
    ∧ conf c' = conf sample_concentrator
    ∧ (length sb + size (buckets c') = size (buckets sample_concentrator))%nat.
Proof.
  pose proof (Flush_closed_form flush_clock sample_concentrator _ sample_last) as Hf.
  destruct (Flush_conserves_buckets _ _ _ _ _ Hf) as (H1 & _ & _ & H4).
  eexists _, _, _. split; [exact Hf|]. split; [exact H1|exact H4].
Defined.

(** X6. The statsd calls of [Flush] are one histogram
    [trace_agent.distribution.len], without tags and at rate 1, for each
    distribution of each bucket it returns, and nothing else; a [Flush] that
    returns no bucket makes no call. *)
Theorem Flush_histograms now c sb c' calls :
  Flush now c = Some (sb, c', calls) →
  length calls = distributions_flushed sb
  ∧ Forall is_distribution_len calls.
Proof.
  intros Hf. destruct (roundToBucket c now) as [last|] eqn:Hl.
  2:{ unfold Flush in Hf. by rewrite Hl in Hf. }
  rewrite (Flush_closed_form _ _ _ Hl) in Hf. injection Hf as <- _ <-.
  unfold distributions_flushed. generalize (flushed_keys now c last) as ks.
  induction ks as [|k ks [IH1 IH2]]; [by split|].
  rewrite !fmap_cons. simpl. rewrite length_app, IH1. split.
  - f_equal. unfold distribution_histograms. rewrite length_map.
    by rewrite length_map_to_list.
  - apply Forall_app. split; [|done].
    unfold distribution_histograms. apply Forall_forall. intros x Hx.
    apply (list_elem_of_fmap (B:=statsd.Call)) in Hx as (kd & -> & _).
    eexists. reflexivity.
Qed.

Lemma Flush_histograms_witness :
  ∃ sb c' calls,
    Flush flush_clock sample_concentrator = Some (sb, c', calls)
    ∧ length calls = distributions_flushed sb
    ∧ Forall is_distribution_len calls.
Proof.
  pose proof (Flush_closed_form flush_clock sample_concentrator _ sample_last) as Hf.
  eexists _, _, _. split; [exact Hf|].
  exact (Flush_histograms _ _ _ _ _ Hf).
Defined.

(** X7. A second [Flush] at the same clock reading finds nothing left to
    flush: it returns no bucket, makes no statsd call and leaves the
    concentrator as the first one left it. *)
Theorem Flush_twice now c sb c' calls :
  Flush now c = Some (sb, c', calls) →
  Flush now c' = Some ([], c', []).
Proof.
  intros Hf. destruct (roundToBucket c now) as [last|] eqn:Hl.
  2:{ unfold Flush in Hf. by rewrite Hl in Hf. }
  rewrite (Flush_closed_form _ _ _ Hl) in Hf. injection Hf as _ <- _.
  set (c' := {| buckets := _; conf := _ |}).
  assert (Hl' : roundToBucket c' now = Some last) by exact Hl.
  rewrite (Flush_closed_form _ _ _ Hl').
  assert (Hnil : flushed_keys now c' last = []).
  { apply elem_of_nil_inv. intros ts [[b Hb] He]%flushed_keys_elem_of.
    apply lookup_foldr_delete_Some in Hb as [Hnot Hb]. apply Hnot.
    apply flushed_keys_elem_of. eauto. }
  rewrite Hnil. reflexivity.
Qed.

Lemma Flush_twice_witness :
  ∃ sb c' calls,
    Flush flush_clock sample_concentrator = Some (sb, c', calls)
    ∧ Flush flush_clock c' = Some ([], c', []).
Proof.
  pose proof (Flush_closed_form flush_clock sample_concentrator _ sample_last) as Hf.
  eexists _, _, _. split; [exact Hf|].
  exact (Flush_twice _ _ _ _ _ Hf).
Defined.

(** ** The concentrator: [Run] *)

(** What the body of a loop keeps, the loop keeps. *)
Lemma fold_panic_preserves {A B} (f : A → B → option A) (P : A → Prop) l :
  (∀ a x a', P a → f a x = Some a' → P a') →
  ∀ a a', P a → fold_panic f a l = Some a' → P a'.
Proof.
  intros Hf. induction l as [|x l IH]; intros a a' Ha; simpl.
  - by intros [= <-].
  - destruct (f a x) as [a1|] eqn:Hfa; [|done]. simpl. apply IH. eauto.
Qed.

Section RunFacts.
Variable IsFlushMarker : Span → bool.
Variable GetEnv : Trace → string.
Variable clock : nat → Z.

Lemma run_span_progress env st s cf reads batches :
  BucketInterval cf ≠ 0 →
  run_progress cf reads batches st →
  ∃ st', run_span clock env st s = Some st' ∧ run_progress cf (S reads) batches st'.
Proof.
  intros Hb (Hcf & Hr & Ho). unfold run_span.
  destruct (HandleNewSpan _ _ s env) as [[[err c'] calls]|] eqn:Hh.
  - simpl. eexists. split; [done|]. repeat split; simpl; try congruence.
    rewrite <- Hcf. by eapply HandleNewSpan_conf.
  - exfalso. unfold HandleNewSpan in Hh. destruct (_ >? _); [done|].
    rewrite roundToBucket_Some in Hh by congruence. done.
Qed.

Lemma run_spans_progress env cf t : ∀ st reads batches,
  BucketInterval cf ≠ 0 →
  run_progress cf reads batches st →
  ∃ st', fold_panic (run_span clock env) st t = Some st'
         ∧ run_progress cf (reads + length t) batches st'.
Proof.
  induction t as [|s t IH]; intros st reads batches Hb Hp; simpl.
  - exists st. split; [done|]. by rewrite Nat.add_0_r.
  - destruct (run_span_progress env st s cf reads batches Hb Hp) as (st1 & -> & Hp1).
    simpl. destruct (IH st1 (S reads) batches Hb Hp1) as (st' & -> & Hp').
    exists st'. split; [done|]. by rewrite Nat.add_succ_r.
Qed.

Lemma run_flush_progress st cf reads batches :
  BucketInterval cf ≠ 0 →
  run_progress cf reads batches st →
  ∃ st', run_flush clock st = Some st' ∧ run_progress cf (S reads) (S batches) st'.
Proof.
  intros Hb (Hcf & Hr & Ho). unfold run_flush, Flush.
  rewrite roundToBucket_Some by congruence. simpl.
  destruct (fold_left _ _ _) as [[sb m] calls]. simpl.
  eexists. split; [done|]. repeat split; simpl; try congruence.
  rewrite length_app. simpl. lia.
Qed.

Lemma run_trace_progress st t cf reads batches :
  BucketInterval cf ≠ 0 →
  run_progress cf reads batches st →
  ∃ st', run_trace IsFlushMarker GetEnv clock st t = Some st'
         ∧ run_progress cf
             (reads + flush_signals IsFlushMarker [t] + spans_handled IsFlushMarker [t])
             (batches + flush_signals IsFlushMarker [t]) st'.
Proof.
  intros Hb Hp. unfold run_trace, flush_signals, spans_handled. simpl.
  destruct (is_flush_signal IsFlushMarker t).
  - destruct (run_flush_progress st cf reads batches Hb Hp) as (st' & -> & Hp').
    exists st'. split; [done|].
    replace (reads + (1 + 0) + (0 + 0))%nat with (S reads) by lia.
    by replace (batches + (1 + 0))%nat with (S batches) by lia.
  - destruct (run_spans_progress
                (if String.eqb (GetEnv t) "" then DefaultEnv (conf (rs_concentrator st))
                 else GetEnv t) cf t st reads batches Hb Hp) as (st' & -> & Hp').
    exists st'. split; [done|].
    replace (reads + (0 + 0) + (length t + 0))%nat with (reads + length t)%nat by lia.
    by replace (batches + (0 + 0))%nat with batches by lia.
Qed.

Lemma run_traces_progress cf input : ∀ st reads batches,
  BucketInterval cf ≠ 0 →
  run_progress cf reads batches st →
  ∃ st', fold_panic (run_trace IsFlushMarker GetEnv clock) st input = Some st'
         ∧ run_progress cf
             (reads + flush_signals IsFlushMarker input + spans_handled IsFlushMarker input)
             (batches + flush_signals IsFlushMarker input) st'.
Proof.
  induction input as [|t input IH]; intros st reads batches Hb Hp.
  - exists st. split; [done|]. unfold flush_signals, spans_handled. simpl.
    by rewrite !Nat.add_0_r.
  - cbn [fold_panic].
    destruct (run_trace_progress st t cf reads batches Hb Hp) as (st1 & -> & Hp1).
    simpl. destruct (IH st1 _ _ Hb Hp1) as (st' & -> & Hp').
    exists st'. split; [done|].
    destruct Hp' as (H1 & H2 & H3).
    unfold run_progress, flush_signals, spans_handled in *.
    rewrite !fmap_cons. simpl in *. repeat split; [done|lia|lia].
Qed.

(** X8. With a bucket interval that is not zero, [Run] ends normally on every
    input, whatever the clock reads: it sends exactly one batch on [out] for
    each flush signal (a trace of one span that is a flush marker), empty
    batches included; it hands every span of every other trace to
    [HandleNewSpan], a rejection stopping nothing, so the clock is read once
    for each flush signal and once for each such span; and it leaves the
    configuration as it was. *)
Theorem Run_one_batch_per_flush_signal (c : Concentrator) (input : list Trace) :
  BucketInterval (conf c) ≠ 0 →
  ∃ st, Run IsFlushMarker GetEnv clock c input = Some st
        ∧ conf (rs_concentrator st) = conf c
        ∧ length (rs_out st) = flush_signals IsFlushMarker input
        ∧ rs_reads st =
            (flush_signals IsFlushMarker input + spans_handled IsFlushMarker input)%nat.
Proof.
  intros Hb.
  destruct (run_traces_progress (conf c) input
              {| rs_concentrator := c; rs_reads := 0; rs_out := []; rs_calls := [];
                 rs_rejected := [] |} 0%nat 0%nat Hb) as (st' & Hrun & Hcf & Hr & Ho).
  { done. }
  exists st'. split; [exact Hrun|]. split; [done|]. split; [exact Ho|exact Hr].
Qed.

(** A property of the concentrator that [HandleNewSpan] and [Flush] keep,
    and a property of the batches that [Flush] returns, hold all along
    [Run]. *)
Variable P : Concentrator → Prop.
Variable Q : list StatsBucket → Prop.
Hypothesis HandleNewSpan_keeps : ∀ now c s env r c' calls,
  P c → HandleNewSpan now c s env = Some (r, c', calls) → P c'.
Hypothesis Flush_keeps : ∀ now c sb c' calls,
  P c → Flush now c = Some (sb, c', calls) → P c' ∧ Q sb.

Lemma run_trace_invariant st t st' :
  P (rs_concentrator st) ∧ Forall Q (rs_out st) →
  run_trace IsFlushMarker GetEnv clock st t = Some st' →
  P (rs_concentrator st') ∧ Forall Q (rs_out st').
Proof.
  intros Hok. unfold run_trace. destruct (is_flush_signal IsFlushMarker t).
  - unfold run_flush.
    destruct (Flush _ _) as [[[sb c'] calls]|] eqn:Hf; [|done]. simpl.
    intros [= <-]. simpl. destruct Hok as [HP HQ].
    destruct (Flush_keeps _ _ _ _ _ HP Hf) as [HP' HQ'].
    split; [done|]. apply Forall_app. split; [done|]. by constructor.
  - set (env := if String.eqb _ _ then _ else _). clearbody env. revert Hok.
    apply (fold_panic_preserves _ (λ st, P (rs_concentrator st) ∧ Forall Q (rs_out st))).
    clear st st'. intros st s st' [HP HQ]. unfold run_span.
    destruct (HandleNewSpan _ _ _ _) as [[[err c'] calls]|] eqn:Hh; [|done]. simpl.
    intros [= <-]. simpl. split; [|done]. by eapply HandleNewSpan_keeps.
Qed.

Lemma Run_invariant c input st :
  P c →
  Run IsFlushMarker GetEnv clock c input = Some st →
  P (rs_concentrator st) ∧ Forall Q (rs_out st).
Proof.
  intros HP. unfold Run.
  apply (fold_panic_preserves _ (λ st, P (rs_concentrator st) ∧ Forall Q (rs_out st))).
  - intros a t a'. apply run_trace_invariant.
  - simpl. split; [done|constructor].
Qed.
End RunFacts.

(** Two traces and two flush signals: two batches, five readings of the
    clock. *)
Lemma Run_one_batch_per_flush_signal_witness :
  ∃ st, Run sample_marker sample_env sample_clock (NewConcentrator sample_conf)
            sample_input = Some st
        ∧ conf (rs_concentrator st) = conf (NewConcentrator sample_conf)
        ∧ length (rs_out st) = 2%nat
        ∧ rs_reads st = 5%nat.
Proof.
  apply (Run_one_batch_per_flush_signal sample_marker sample_env sample_clock
           (NewConcentrator sample_conf) sample_input).
  simpl. lia.
Defined.

(** X9. Every key under which the concentrator holds a bucket at the end of
    [Run], started on a new concentrator, is a multiple of the bucket
    interval, whatever the traces, the clock and the timestamps of the
    spans. *)
Theorem Run_keys_aligned IsFlushMarker GetEnv clock (cf : AgentConfig)
    (input : list Trace) (st : run_state) :
  Run IsFlushMarker GetEnv clock (NewConcentrator cf) input = Some st →
  ∀ ts, is_Some (buckets (rs_concentrator st) !! ts) → (BucketInterval cf | ts).
Proof.
  intros Hrun.
  destruct (λ H1 H2 H3, Run_invariant IsFlushMarker GetEnv clock
              (λ c, keys_aligned c ∧ conf c = conf (NewConcentrator cf)) (λ _, True)
              H1 H2 (NewConcentrator cf) input st H3 Hrun) as [[Hal Hcf] _].
  - intros now c s env r c' calls [Hal Hcf] Hh. split.
    + by eapply HandleNewSpan_aligned.
    + rewrite <- Hcf. by eapply HandleNewSpan_conf.
  - intros now c sb c' calls [Hal Hcf] Hf. split; [|done]. split.
    + by eapply Flush_aligned.
    + rewrite <- Hcf. by eapply Flush_conf.
  - split; [|done]. intros ts [b Hb]. simpl in Hb. by rewrite lookup_empty in Hb.
  - intros ts Hts. specialize (Hal ts Hts). by rewrite Hcf in Hal.
Qed.

(** The sample run ends normally. *)
Lemma sample_run_returns :
  ∃ st, Run sample_marker sample_env sample_clock (NewConcentrator sample_conf)
            sample_input = Some st.
Proof.
  destruct (run_traces_progress sample_marker sample_env sample_clock
              (conf (NewConcentrator sample_conf)) sample_input
              {| rs_concentrator := NewConcentrator sample_conf; rs_reads := 0;
                 rs_out := []; rs_calls := []; rs_rejected := [] |} 0%nat 0%nat)
    as (st & Hrun & _).
  - simpl. lia.
  - done.
  - by exists st.
Defined.

Lemma Run_keys_aligned_witness :
  ∃ st, Run sample_marker sample_env sample_clock (NewConcentrator sample_conf)
            sample_input = Some st
        ∧ ∀ ts, is_Some (buckets (rs_concentrator st) !! ts) → (10000000000 | ts).
Proof.
  destruct sample_run_returns as [st Hrun]. exists st. split; [exact Hrun|].
  exact (Run_keys_aligned sample_marker sample_env sample_clock sample_conf
           sample_input st Hrun).
Defined.

(** X10. Every bucket of every batch that [Run] sends on [out], started on a
    new concentrator, starts at a multiple of the bucket interval and carries
    the bucket interval as its duration. *)
Theorem Run_batches_well_formed IsFlushMarker GetEnv clock (cf : AgentConfig)
    (input : list Trace) (st : run_state) :
  Run IsFlushMarker GetEnv clock (NewConcentrator cf) input = Some st →
  Forall (Forall (bucket_ok cf)) (rs_out st).
Proof.
  intros Hrun.
  destruct (λ H1 H2 H3, Run_invariant IsFlushMarker GetEnv clock
              (λ c, buckets_ok c ∧ conf c = conf (NewConcentrator cf))
              (Forall (bucket_ok cf))
              H1 H2 (NewConcentrator cf) input st H3 Hrun) as [_ Hout]; [| | |done].
  - intros now c s env r c' calls [Hal Hcf] Hh. split.
    + by eapply HandleNewSpan_buckets_ok.
    + rewrite <- Hcf. by eapply HandleNewSpan_conf.
  - intros now c sb c' calls [Hal Hcf] Hf.
    destruct (Flush_buckets_ok _ _ _ _ _ Hal Hf) as [Hok' Hsb]. split; [split|].
    + done.
    + rewrite <- Hcf. by eapply Flush_conf.
    + unfold bucket_ok in *. rewrite Hcf in Hsb. exact Hsb.
  - split; [|done]. intros ts b Hb. simpl in Hb. by rewrite lookup_empty in Hb.
Qed.

Lemma Run_batches_well_formed_witness :
  ∃ st, Run sample_marker sample_env sample_clock (NewConcentrator sample_conf)
            sample_input = Some st
        ∧ Forall (Forall (bucket_ok sample_conf)) (rs_out st).
Proof.
  destruct sample_run_returns as [st Hrun]. exists st. split; [exact Hrun|].
  exact (Run_batches_well_formed sample_marker sample_env sample_clock sample_conf
           sample_input st Hrun).
Defined.

(** ** Binary64 arithmetic, from its specification [SpecFloat] *)

Section Binary64.

Lemma iter_pos_invariant {A : Type} (P : A → Prop) (f : A → A) :
  (∀ x, P x → P (f x)) → ∀ n x, P x → P (SpecFloat.iter_pos f n x).
Proof.
  intros Hf. induction n as [n IH|n IH|]; intros x Hx; simpl; auto.
Qed.

Lemma shr_1_div2 r : 0 <= shr_m r → shr_m (shr_1 r) = shr_m r / 2.
Proof.
  destruct r as [m r s]. cbn [shr_m]. intros Hm.
  destruct m as [|[p|p|]|p]; cbn [shr_1 shr_m]; try lia; try reflexivity.
  - apply (Z.div_unique_pos _ _ _ 1); lia.
  - apply (Z.div_unique_pos _ _ _ 0); lia.
Qed.

Lemma shr_1_nonneg r : 0 <= shr_m r → 0 <= shr_m (shr_1 r).
Proof. intros H. rewrite shr_1_div2 by done. apply Z.div_pos; lia. Qed.

Lemma pow2_xO n : 2 ^ Z.pos n~0 = 2 ^ Z.pos n * 2 ^ Z.pos n.
Proof.
  replace (Z.pos n~0) with (Z.pos n + Z.pos n) by lia.
  by rewrite Z.pow_add_r by lia.
Qed.

Lemma pow2_xI n : 2 ^ Z.pos n~1 = 2 * (2 ^ Z.pos n * 2 ^ Z.pos n).
Proof.
  replace (Z.pos n~1) with (1 + (Z.pos n + Z.pos n)) by lia.
  by rewrite !Z.pow_add_r, Z.pow_1_r by lia.
Qed.

Lemma iter_shr_1 n : ∀ r,
  0 <= shr_m r → shr_m (SpecFloat.iter_pos shr_1 n r) = shr_m r / 2 ^ Z.pos n.
Proof.
  induction n as [n IH|n IH|]; intros r Hr; simpl SpecFloat.iter_pos.
  - assert (H1 := shr_1_nonneg r Hr).
    assert (H2 : 0 <= shr_m (SpecFloat.iter_pos shr_1 n (shr_1 r))).
    { apply (iter_pos_invariant (λ r, 0 <= shr_m r)); auto using shr_1_nonneg. }
    rewrite IH, IH, shr_1_div2 by done.
    rewrite !Z.div_div by lia. by rewrite pow2_xI, Z.mul_assoc.
  - assert (H2 : 0 <= shr_m (SpecFloat.iter_pos shr_1 n r)).
    { apply (iter_pos_invariant (λ r, 0 <= shr_m r)); auto using shr_1_nonneg. }
    rewrite IH, IH by done. rewrite Z.div_div by lia. by rewrite pow2_xO.
  - rewrite shr_1_div2 by done. reflexivity.
Qed.

(** The mantissa a right shift leaves: the quotient by the power of two. *)
Lemma shr_spec r e n :
  0 <= shr_m r →
  shr r e n = (fst (shr r e n), snd (shr r e n))
  ∧ (0 < n → shr_m (fst (shr r e n)) = shr_m r / 2 ^ n ∧ snd (shr r e n) = e + n)
  ∧ (n <= 0 → fst (shr r e n) = r ∧ snd (shr r e n) = e).
Proof.
  intros Hr. split; [by destruct (shr r e n)|]. split.
  - intros Hn. destruct n as [|n|n]; try lia. simpl. by rewrite iter_shr_1.
  - intros Hn. destruct n as [|n|n]; try lia; done.
Qed.

Lemma shr_record_of_loc_m m l : shr_m (shr_record_of_loc m l) = m.
Proof. by destruct l as [|[]]. Qed.

Lemma round_nearest_even_bounds m l :
  m <= round_nearest_even m l <= m + 1.
Proof. destruct l as [|[]]; simpl; try lia. destruct (Z.even m); lia. Qed.

Lemma digits2_pos_bounds p :
  2 ^ (Z.pos (digits2_pos p) - 1) <= Z.pos p < 2 ^ Z.pos (digits2_pos p).
Proof.
  induction p as [p IH|p IH|]; simpl digits2_pos; [| |simpl; lia].
  all: rewrite Pos2Z.inj_succ.
  all: replace (Z.succ (Z.pos (digits2_pos p)) - 1) with (Z.pos (digits2_pos p)) by lia.
  all: rewrite Z.pow_succ_r by lia.
  all: assert (E : 2 ^ Z.pos (digits2_pos p) = 2 * 2 ^ (Z.pos (digits2_pos p) - 1))
         by (rewrite <- Z.pow_succ_r by lia; f_equal; lia).
  all: lia.
Qed.

Lemma shr_shifted r e n :
  0 <= shr_m r →
  shifted (shr_m r) e n (shr_m (fst (shr r e n))) (snd (shr r e n)).
Proof.
  intros Hr. destruct (shr_spec r e n Hr) as (_ & Hpos & Hneg).
  destruct (Z_lt_le_dec 0 n) as [Hn|Hn].
  - right. destruct (Hpos Hn) as [-> ->]. done.
  - left. destruct (Hneg Hn) as [-> ->]. done.
Qed.

Lemma shifted_nonneg m e n m' e' : 0 <= m → shifted m e n m' e' → 0 <= m'.
Proof.
  intros Hm [(_ & -> & _)|(Hn & -> & _)]; [done|].
  apply Z.div_pos; [done|]. apply Z.pow_pos_nonneg; lia.
Qed.

(** The two shifts of [binary_round_aux] and the number it builds from the
    mantissa and the exponent they leave. *)
Lemma binary_round_aux_cases prec emax sx m e l :
  0 <= m →
  ∃ m1 e1 mr m2 e2,
    shifted m e (fexp prec emax (Zdigits2 m + e) - e) m1 e1
    ∧ m1 <= mr <= m1 + 1
    ∧ shifted mr e1 (fexp prec emax (Zdigits2 mr + e1) - e1) m2 e2
    ∧ 0 <= m2
    ∧ binary_round_aux prec emax sx m e l =
        match m2 with
        | Z0 => S754_zero sx
        | Z.pos p => if e2 <=? emax - prec then S754_finite sx p e2 else S754_infinity sx
        | Z.neg _ => S754_nan
        end.
Proof.
  intros Hm. unfold binary_round_aux, shr_fexp.
  pose proof (shr_shifted (shr_record_of_loc m l) e
                (fexp prec emax (Zdigits2 m + e) - e)) as H1.
  rewrite shr_record_of_loc_m in H1. specialize (H1 Hm).
  destruct (shr (shr_record_of_loc m l) e _) as [r1 e1]. cbn [fst snd] in H1.
  pose proof (shifted_nonneg _ _ _ _ _ Hm H1) as Hm1.
  pose proof (round_nearest_even_bounds (shr_m r1) (loc_of_shr_record r1)) as Hmr.
  set (mr := round_nearest_even (shr_m r1) (loc_of_shr_record r1)) in *.
  pose proof (shr_shifted (shr_record_of_loc mr loc_Exact) e1
                (fexp prec emax (Zdigits2 mr + e1) - e1)) as H2.
  rewrite shr_record_of_loc_m in H2. specialize (H2 ltac:(lia)).
  destruct (shr (shr_record_of_loc mr loc_Exact) e1 _) as [r2 e2]. cbn [fst snd] in H2.
  exists (shr_m r1), e1, mr, (shr_m r2), e2.
  repeat split; try done; try lia.
  eapply shifted_nonneg; [|exact H2]. lia.
Qed.

Lemma binary_round_aux_nonneg prec emax m e l :
  0 <= m → nonneg_sf (binary_round_aux prec emax false m e l) = true.
Proof.
  intros Hm.
  destruct (binary_round_aux_cases prec emax false m e l Hm)
    as (m1 & e1 & mr & m2 & e2 & _ & _ & _ & Hm2 & ->).
  destruct m2 as [|p|p]; [done| |lia]. by destruct (e2 <=? emax - prec).
Qed.

Lemma div_pow2_lower (M d k : Z) :
  0 <= k <= d - 1 → 2 ^ (d - 1) <= M → 2 ^ (d - 1 - k) <= M / 2 ^ k.
Proof.
  intros Hk HM. apply Z.div_le_lower_bound; [apply Z.pow_pos_nonneg; lia|].
  rewrite <- Z.pow_add_r by lia. replace (k + (d - 1 - k)) with (d - 1) by lia. done.
Qed.

Lemma Zdigits2_bounds m :
  0 < m → 2 ^ (Zdigits2 m - 1) <= m < 2 ^ Zdigits2 m.
Proof. destruct m as [|p|p]; try lia. intros _. apply digits2_pos_bounds. Qed.

Lemma Zdigits2_lower m k : 0 <= k → 2 ^ k <= m → k < Zdigits2 m.
Proof.
  intros Hk Hm. assert (0 < m) by (pose proof (Z.pow_pos_nonneg 2 k); lia).
  destruct (Zdigits2_bounds m) as [_ Hu]; [done|].
  destruct (Z_lt_le_dec k (Zdigits2 m)) as [|Hle]; [done|].
  assert (0 <= Zdigits2 m) by (destruct m; simpl; lia).
  pose proof (Z.pow_le_mono_r 2 _ _ ltac:(lia) Hle). lia.
Qed.

(** Multiplying a positive binary64 number by 1.125 does not decrease it. *)
Lemma SFmul_nine_eighths_ge mx ex :
  bounded prec emax mx ex = true →
  SFleb (S754_finite false mx ex)
        (SFmul prec emax (S754_finite false mx ex) nine_eighths) = true.
Proof.
  intros Hb. unfold bounded, canonical_mantissa, fexp, SpecFloat.emin in Hb.
  apply andb_true_iff in Hb as [Hcan _]. apply Z.eqb_eq in Hcan.
  change prec with 53 in *. change emax with 1024 in *.
  pose proof (digits2_pos_bounds mx) as Hdx.
  set (dx := Z.pos (digits2_pos mx)) in *.
  unfold nine_eighths. cbn [SFmul xorb].
  set (M := Z.pos (mx * 5066549580791808)).
  assert (HM : M = Z.pos mx * 5066549580791808) by (unfold M; lia).
  assert (HMpos : 0 < M) by lia.
  destruct (binary_round_aux_cases 53 1024 false M (ex + -52) loc_Exact ltac:(lia))
    as (m1 & e1 & mr & m2 & e2 & H1 & Hmr & H2 & Hm2 & ->).
  unfold fexp, SpecFloat.emin in H1, H2.
  pose proof (Zdigits2_bounds M HMpos) as HdM.
  set (d := Zdigits2 M) in *.
  assert (Hex : -1074 <= ex) by lia.
  (* the first shift is by at least 52 digits and leaves a positive mantissa *)
  assert (Hd : ex = -1074 ∨ 105 <= d).
  { destruct (Z.eq_dec ex (-1074)) as [|Hne]; [by left|right].
    assert (dx = 53) by lia.
    assert (2 ^ 52 <= Z.pos mx) by (replace 52 with (dx - 1) by lia; lia).
    assert (2 ^ 104 <= M) by (rewrite HM; change (2 ^ 104) with (2 ^ 52 * 2 ^ 52); nia).
    pose proof (Zdigits2_lower M 104 ltac:(lia) ltac:(done)). unfold d. lia. }
  assert (Hd53 : 53 <= d).
  { assert (2 ^ 52 <= M) by (rewrite HM; change (2 ^ 52) with 4503599627370496; nia).
    pose proof (Zdigits2_lower M 52 ltac:(lia) ltac:(done)). unfold d. lia. }
  assert (Hshift1 : ex <= e1 ∧ 0 < m1 ∧ (e1 = ex → Z.pos mx <= m1)).
  { destruct H1 as [(Hn & _ & _)|(Hn & -> & ->)]; [lia|].
    split; [lia|].
    destruct (Z.eq_dec (Z.max (d + (ex + -52) - 53) (3 - 1024 - 53) - (ex + -52)) 52)
      as [E|E].
    - rewrite E.
      assert (Z.pos mx <= M / 2 ^ 52).
      { apply Z.div_le_lower_bound; [lia|].
        rewrite HM. change (2 ^ 52) with 4503599627370496. lia. }
      split; [lia|done].
    - assert (E' : Z.max (d + (ex + -52) - 53) (3 - 1024 - 53) - (ex + -52) = d - 53) by lia.
      rewrite E'. 
      pose proof (div_pow2_lower M d (d - 53) ltac:(lia) ltac:(lia)) as Hlow.
      replace (d - 1 - (d - 53)) with 52 in Hlow by lia.
      change (2 ^ 52) with 4503599627370496 in Hlow.
      split; [lia|]. intros. lia. }
  destruct Hshift1 as (He1 & Hm1 & Heq1).
  (* the second shift keeps the mantissa positive *)
  assert (Hshift2 : 0 < m2 ∧ (ex < e2 ∨ e2 = ex ∧ Z.pos mx <= m2)).
  { assert (Hmrpos : 0 < mr) by lia.
    pose proof (Zdigits2_bounds mr Hmrpos) as Hdr.
    destruct H2 as [(Hn & -> & ->)|(Hn & -> & ->)].
    - split; [lia|]. destruct (Z.eq_dec e1 ex) as [E|E]; [right|left]; [|lia].
      split; [done|]. specialize (Heq1 E). lia.
    - assert (E' : Z.max (Zdigits2 mr + e1 - 53) (3 - 1024 - 53) - e1 = Zdigits2 mr - 53) by lia.
      rewrite E' in *.
      pose proof (div_pow2_lower mr (Zdigits2 mr) (Zdigits2 mr - 53) ltac:(lia) ltac:(lia))
        as Hlow.
      replace (Zdigits2 mr - 1 - (Zdigits2 mr - 53)) with 52 in Hlow by lia.
      change (2 ^ 52) with 4503599627370496 in Hlow.
      split; [lia|]. left. lia. }
  destruct Hshift2 as (Hm2pos & Hcmp).
  destruct m2 as [|p|p]; try lia.
  destruct (e2 <=? 1024 - 53); [|done].
  unfold SFleb, SFcompare.
  destruct Hcmp as [Hlt|[-> Hle]].
  - apply Z.compare_lt_iff in Hlt. by rewrite Hlt.
  - rewrite Z.compare_refl. fold (Pos.compare mx p).
    destruct (Pos.compare_spec mx p); try done. lia.
Qed.

Lemma shl_align_fst_pos mx ex ez : 0 < Z.pos (fst (shl_align mx ex ez)).
Proof. lia. Qed.

Lemma SFadd_nonneg x y :
  nonneg_sf x = true → nonneg_sf y = true → nonneg_sf (SFadd prec emax x y) = true.
Proof.
  destruct x as [sx|[]| |[] mx ex], y as [sy|[]| |[] my ey]; try done.
  - by destruct sx, sy.
  - intros _ _. cbn [SFadd cond_Zopp].
    destruct (shl_align mx ex (Z.min ex ey)) as [mx' ex'].
    destruct (shl_align my ey (Z.min ex ey)) as [my' ey']. cbn [fst].
    change (Z.pos mx' + Z.pos my') with (Z.pos (mx' + my')).
    cbn [binary_normalize]. unfold binary_round.
    destruct (shl_align _ _ _) as [mz ez]. by apply binary_round_aux_nonneg.
Qed.

Lemma SFdiv_core_quotient_nonneg m1 e1 m2 e2 :
  0 < m1 → 0 < m2 → 0 <= (SFdiv_core_binary prec emax m1 e1 m2 e2).1.1.
Proof.
  intros H1 H2. unfold SFdiv_core_binary.
  set (s := _ - _ - _).
  set (m' := match s with Z.pos _ => Z.shiftl m1 s | Z0 => m1 | Z.neg _ => 0 end).
  assert (Hm' : 0 <= m').
  { unfold m'. destruct s; try lia. apply Z.shiftl_nonneg. lia. }
  pose proof (Z_div_mod_full m' m2 ltac:(lia)) as Hdm.
  pose proof (Z.div_pos m' m2 Hm' H2) as Hq.
  unfold Z.div in Hq.
  destruct (Z.div_eucl m' m2) as [q r]. done.
Qed.

(** A non-negative number divided by a positive finite one. *)
Lemma SFdiv_nonneg x my ey :
  nonneg_sf x = true →
  nonneg_sf (SFdiv prec emax x (S754_finite false my ey)) = true.
Proof.
  destruct x as [sx|[]| |[] mx ex]; try done.
  intros _. cbn [SFdiv xorb].
  pose proof (SFdiv_core_quotient_nonneg (Z.pos mx) ex (Z.pos my) ey
                ltac:(lia) ltac:(lia)) as Hq.
  destruct (SFdiv_core_binary prec emax (Z.pos mx) ex (Z.pos my) ey) as [[mz ez] lz].
  by apply binary_round_aux_nonneg.
Qed.

Lemma SFcompare_antisym x y :
  SFcompare y x = CompOpp <$> SFcompare x y.
Proof.
  destruct x as [sx|sx| |sx mx ex], y as [sy|sy| |sy my ey]; try done;
    try (by destruct sx); try (by destruct sy); try (by destruct sx, sy).
  cbn [SFcompare]. rewrite (Z.compare_antisym ex ey).
  fold (Pos.compare mx my). fold (Pos.compare my mx).
  rewrite (Pos.compare_antisym mx my).
  destruct sx, sy; simpl; try done;
    destruct (ex ?= ey); simpl; try done; by destruct (mx ?= my)%positive.
Qed.

(** On numbers (not NaN), [y <= x] is the negation of [x < y]. *)
Lemma SFleb_not_ltb x y :
  SFleb y x = true ↔ SFltb x y = false ∧ x ≠ S754_nan ∧ y ≠ S754_nan.
Proof.
  unfold SFleb, SFltb. rewrite (SFcompare_antisym x y).
  destruct x as [sx|sx| |sx mx ex], y as [sy|sy| |sy my ey];
    try (cbn; intuition congruence).
  all: destruct (SFcompare _ _) as [[]|] eqn:E; cbn; try (intuition congruence).
  all: discriminate E.
Qed.

(** *** The same facts on primitive floats *)

Lemma Prim2SF_zero : Prim2SF 0%float = S754_zero false.
Proof. reflexivity. Qed.

Lemma Prim2SF_one : Prim2SF 1%float = S754_finite false 4503599627370496 (-52).
Proof. reflexivity. Qed.

Lemma Prim2SF_nine_eighths : Prim2SF 1.125%float = nine_eighths.
Proof. reflexivity. Qed.

Lemma leb_zero_nonneg x :
  (0 <=? x)%float = true ↔ nonneg_sf (Prim2SF x) = true.
Proof.
  rewrite leb_spec, Prim2SF_zero.
  by destruct (Prim2SF x) as [s|[]| |[] m e].
Qed.

(** [0 < y]: [y] is a positive finite number or plus infinity. *)
Lemma ltb_zero_pos y :
  (0 <? y)%float = true →
  Prim2SF y = S754_infinity false ∨ ∃ m e, Prim2SF y = S754_finite false m e.
Proof.
  rewrite ltb_spec, Prim2SF_zero.
  destruct (Prim2SF y) as [s|[]| |[] m e]; try done; eauto.
Qed.

Lemma ltb_infinity_finite y :
  (y <? infinity)%float = true → Prim2SF y ≠ S754_infinity false.
Proof.
  rewrite ltb_spec. change (Prim2SF infinity) with (S754_infinity false).
  by destruct (Prim2SF y) as [s|[]| |[] m e].
Qed.

Lemma float_add_nonneg x y :
  (0 <=? x)%float = true → (0 <=? y)%float = true → (0 <=? x + y)%float = true.
Proof.
  rewrite !leb_zero_nonneg, add_spec. apply SFadd_nonneg.
Qed.

Lemma float_div_nonneg x y :
  (0 <=? x)%float = true → (0 <? y)%float = true → (y <? infinity)%float = true →
  (0 <=? x / y)%float = true.
Proof.
  rewrite !leb_zero_nonneg, div_spec.
  intros Hx [Hy|(m & e & Hy)]%ltb_zero_pos Hfin%ltb_infinity_finite; [done|].
  rewrite Hy. by apply SFdiv_nonneg.
Qed.

Lemma float_div_nine_eighths_nonneg x :
  (0 <=? x)%float = true → (0 <=? x / 1.125)%float = true.
Proof. intros Hx. by apply float_div_nonneg. Qed.

Lemma float_mul_nine_eighths_ge x :
  (0 <=? x)%float = true → (x <=? x * 1.125)%float = true.
Proof.
  rewrite leb_zero_nonneg, leb_spec, mul_spec, Prim2SF_nine_eighths.
  pose proof (Prim2SF_valid x) as Hv.
  destruct (Prim2SF x) as [s|[]| |[] m e]; try done.
  intros _. by apply SFmul_nine_eighths_ge.
Qed.

(** [0 / y] is [+0] for every positive [y]. *)
Lemma float_zero_div_pos y : (0 <? y)%float = true → (0 / y)%float = 0%float.
Proof.
  intros Hy. apply Prim2SF_inj. rewrite div_spec, Prim2SF_zero.
  destruct (ltb_zero_pos y Hy) as [->|(m & e & ->)]; done.
Qed.

Lemma float_leb_not_ltb x y :
  (0 <=? x)%float = true → (0 <=? y)%float = true →
  (y <=? x)%float = true ↔ (x <? y)%float = false.
Proof.
  rewrite !leb_zero_nonneg, leb_spec, ltb_spec, SFleb_not_ltb.
  intros Hx Hy. split; [tauto|]. intros H. split; [done|].
  split; intros E; rewrite E in *; done.
Qed.

(** *** Normal numbers *)

Lemma Zdigits2_unique m k :
  0 < k → 2 ^ (k - 1) <= m < 2 ^ k → Zdigits2 m = k.
Proof.
  intros Hk [Hlo Hhi].
  assert (Hm : 0 < m) by (pose proof (Z.pow_pos_nonneg 2 (k - 1)); lia).
  pose proof (Zdigits2_bounds m Hm) as [Hl Hu].
  assert (Hd : 0 < Zdigits2 m) by (destruct m; simpl; lia).
  destruct (Z.lt_trichotomy (Zdigits2 m) k) as [Hlt|[Heq|Hgt]]; [|done|].
  - pose proof (Z.pow_le_mono_r 2 (Zdigits2 m) (k - 1) ltac:(lia) ltac:(lia)). lia.
  - pose proof (Z.pow_le_mono_r 2 k (Zdigits2 m - 1) ltac:(lia) ltac:(lia)). lia.
Qed.

Lemma normal_pos_weaken lo hi lo' hi' x :
  lo' <= lo → hi <= hi' → normal_pos lo hi x → normal_pos lo' hi' x.
Proof. intros ?? (m & e & -> & ? & ?). exists m, e. repeat split; lia. Qed.

(** Rounding a mantissa of at least 53 digits, away from the subnormal and
    overflow ranges, gives a normal number: the exponent grows by the digits
    dropped, and by one more if rounding carries. *)
Lemma binary_round_aux_normal M e l :
  2 ^ 52 <= M → -1074 <= e → e + Zdigits2 M - 52 <= 971 →
  normal_pos (e + Zdigits2 M - 53) (e + Zdigits2 M - 52)
             (binary_round_aux prec emax false M e l).
Proof.
  intros HM He Hhi. change (2 ^ 52) with 4503599627370496 in HM.
  assert (HMpos : 0 < M) by lia.
  destruct (binary_round_aux_cases prec emax false M e l ltac:(lia))
    as (m1 & e1 & mr & m2 & e2 & H1 & Hmr & H2 & Hm2 & ->).
  unfold fexp, SpecFloat.emin in H1, H2.
  change prec with 53 in *. change emax with 1024 in *.
  pose proof (Zdigits2_bounds M HMpos) as HdM.
  pose proof (Zdigits2_lower M 52 ltac:(lia) ltac:(done)) as Hd.
  set (d := Zdigits2 M) in *.
  assert (Hs1 : 2 ^ 52 <= m1 < 2 ^ 53 ∧ e1 = e + d - 53).
  { destruct H1 as [(Hn & -> & ->)|(Hn & -> & ->)].
    - assert (d = 53) by lia. replace (d - 1) with 52 in HdM by lia.
      replace d with 53 in HdM by lia. lia.
    - assert (E : Z.max (d + e - 53) (3 - 1024 - 53) - e = d - 53) by lia.
      rewrite E. split; [|lia]. split.
      + pose proof (div_pow2_lower M d (d - 53) ltac:(lia) ltac:(lia)) as Hlow.
        by replace (d - 1 - (d - 53)) with 52 in Hlow by lia.
      + apply Z.div_lt_upper_bound; [apply Z.pow_pos_nonneg; lia|].
        rewrite <- Z.pow_add_r by lia. replace (d - 53 + 53) with d by lia. lia. }
  destruct Hs1 as [Hm1 ->].
  change (2 ^ 52) with 4503599627370496 in *. change (2 ^ 53) with 9007199254740992 in *.
  assert (Hs2 : 4503599627370496 <= m2 < 9007199254740992
                ∧ e + d - 53 <= e2 <= e + d - 52).
  { destruct (Z.eq_dec mr 9007199254740992) as [->|Hne].
    - change (Zdigits2 9007199254740992) with 54 in H2.
      destruct H2 as [(Hn & _)|(Hn & -> & ->)]; [lia|].
      replace (Z.max (54 + (e + d - 53) - 53) (3 - 1024 - 53) - (e + d - 53)) with 1 by lia.
      change (9007199254740992 / 2 ^ 1) with 4503599627370496. lia.
    - assert (Hdr : Zdigits2 mr = 53).
      { apply Zdigits2_unique; [lia|].
        change (2 ^ (53 - 1)) with 4503599627370496.
        change (2 ^ 53) with 9007199254740992. lia. }
      rewrite Hdr in H2. destruct H2 as [(Hn & -> & ->)|(Hn & _)]; lia. }
  destruct Hs2 as [Hm2b He2].
  destruct m2 as [|p|p]; try lia.
  assert ((e2 <=? 1024 - 53) = true) as -> by (apply Z.leb_le; lia).
  exists p, e2. repeat split; lia.
Qed.

Lemma Zdigits2_upper m k : 0 < m → m < 2 ^ k → Zdigits2 m <= k.
Proof.
  intros Hm Hk. pose proof (Zdigits2_bounds m Hm) as [Hl _].
  destruct (Z_le_gt_dec (Zdigits2 m) k) as [|Hgt]; [done|].
  assert (0 <= k).
  { destruct (Z_le_gt_dec 0 k); [done|]. rewrite Z.pow_neg_r in Hk; lia. }
  pose proof (Z.pow_le_mono_r 2 k (Zdigits2 m - 1) ltac:(lia) ltac:(lia)). lia.
Qed.

Lemma normal_pos_digits m : 2 ^ 52 <= Z.pos m < 2 ^ 53 → Zdigits2 (Z.pos m) = 53.
Proof. intros H. apply Zdigits2_unique; [lia|]. exact H. Qed.

(** The product of two normal numbers, away from underflow and overflow. *)
Lemma SFmul_normal l1 h1 l2 h2 x y :
  normal_pos l1 h1 x → normal_pos l2 h2 y →
  -1074 <= l1 + l2 → h1 + h2 + 54 <= 971 →
  normal_pos (l1 + l2 + 52) (h1 + h2 + 54) (SFmul prec emax x y).
Proof.
  intros (mx & ex & -> & Hmx & Hex) (my & ey & -> & Hmy & Hey) Hlo Hhi.
  cbn [SFmul xorb]. rewrite Pos2Z.inj_mul.
  set (M := Z.pos mx * Z.pos my).
  change (2 ^ 52) with 4503599627370496 in *. change (2 ^ 53) with 9007199254740992 in *.
  assert (HM : 2 ^ 104 <= M < 2 ^ 106).
  { change (2 ^ 104) with (4503599627370496 * 4503599627370496).
    change (2 ^ 106) with (9007199254740992 * 9007199254740992). unfold M. nia. }
  pose proof (Zdigits2_lower M 104 ltac:(lia) ltac:(lia)) as Hd1.
  pose proof (Zdigits2_upper M 106 ltac:(lia) ltac:(lia)) as Hd2.
  eapply normal_pos_weaken; [| |apply binary_round_aux_normal]; lia.
Qed.

Lemma div_eucl_div a b : (Z.div_eucl a b).1 = a / b.
Proof. reflexivity. Qed.

(** The quotient of two normal numbers, away from underflow and overflow. *)
Lemma SFdiv_normal l1 h1 l2 h2 x y :
  normal_pos l1 h1 x → normal_pos l2 h2 y →
  -1074 <= l1 - h2 - 53 → h1 - l2 - 51 <= 971 →
  normal_pos (l1 - h2 - 53) (h1 - l2 - 51) (SFdiv prec emax x y).
Proof.
  intros (mx & ex & -> & Hmx & Hex) (my & ey & -> & Hmy & Hey) Hlo Hhi.
  cbn [SFdiv xorb]. unfold SFdiv_core_binary.
  rewrite (normal_pos_digits mx Hmx), (normal_pos_digits my Hmy).
  unfold fexp, SpecFloat.emin. change prec with 53. change emax with 1024.
  replace (Z.min (Z.max (53 + ex - (53 + ey) - 53) (3 - 1024 - 53)) (ex - ey))
    with (ex - ey - 53) by lia.
  replace (ex - ey - (ex - ey - 53)) with 53 by lia.
  rewrite Z.shiftl_mul_pow2 by lia.
  pose proof (div_eucl_div (Z.pos mx * 2 ^ 53) (Z.pos my)) as Hq.
  destruct (Z.div_eucl (Z.pos mx * 2 ^ 53) (Z.pos my)) as [q r]. simpl in Hq. subst q.
  set (q := Z.pos mx * 2 ^ 53 / Z.pos my).
  change (2 ^ 52) with 4503599627370496 in *. change (2 ^ 53) with 9007199254740992 in *.
  assert (Hq : 2 ^ 52 <= q < 2 ^ 54).
  { change (2 ^ 52) with 4503599627370496. change (2 ^ 54) with 18014398509481984.
    unfold q. split.
    - apply Z.div_le_lower_bound; [lia|]. nia.
    - apply Z.div_lt_upper_bound; [lia|]. nia. }
  pose proof (Zdigits2_lower q 52 ltac:(lia) ltac:(lia)) as Hd1.
  assert (0 < q) by (change (2 ^ 52) with 4503599627370496 in Hq; lia).
  pose proof (Zdigits2_upper q 54 ltac:(lia) ltac:(lia)) as Hd2.
  eapply normal_pos_weaken; [| |apply binary_round_aux_normal]; try lia.
Qed.

Lemma iter_xO_value k : ∀ m, Z.pos (Pos.iter xO m k) = Z.pos m * 2 ^ Z.pos k.
Proof.
  induction k as [|k IH] using Pos.peano_ind; intros m.
  - simpl. lia.
  - rewrite Pos.iter_succ, Pos2Z.inj_xO, IH, Pos2Z.inj_succ, Z.pow_succ_r by lia. lia.
Qed.

(** Aligning a mantissa to a smaller exponent multiplies it by the power of
    two between the exponents. *)
Lemma shl_align_value mx ex ez :
  ez <= ex →
  Z.pos (shl_align mx ex ez).1 = Z.pos mx * 2 ^ (ex - ez)
  ∧ (shl_align mx ex ez).2 = ez.
Proof.
  intros Hle. unfold shl_align. destruct (ez - ex) as [|p|p] eqn:E; try lia.
  - replace (ex - ez) with 0 by lia. simpl. lia.
  - cbn [fst snd]. rewrite iter_xO_value. replace (ex - ez) with (Z.pos p) by lia. done.
Qed.

Lemma shl_align_id mx ex ez : ex <= ez → shl_align mx ex ez = (mx, ex).
Proof. intros Hle. unfold shl_align. destruct (ez - ex) as [|p|p] eqn:E; (done || lia). Qed.

(** The sum of two normal numbers, away from overflow. *)
Lemma SFadd_normal l1 h1 l2 h2 x y :
  normal_pos l1 h1 x → normal_pos l2 h2 y →
  -1074 <= Z.min l1 l2 → Z.max h1 h2 + 2 <= 971 →
  normal_pos (Z.min l1 l2) (Z.max h1 h2 + 2) (SFadd prec emax x y).
Proof.
  intros (mx & ex & -> & Hmx & Hex) (my & ey & -> & Hmy & Hey) Hlo Hhi.
  cbn [SFadd cond_Zopp]. set (ez := Z.min ex ey).
  assert (Hez : ez = Z.min ex ey) by reflexivity. clearbody ez.
  destruct (shl_align_value mx ex ez ltac:(lia)) as [Hx _].
  destruct (shl_align_value my ey ez ltac:(lia)) as [Hy _].
  set (ax := (shl_align mx ex ez).1) in *. set (ay := (shl_align my ey ez).1) in *.
  change (Z.pos ax + Z.pos ay) with (Z.pos (ax + ay)).
  cbn [binary_normalize]. unfold binary_round.
  assert (HS : Z.pos (ax + ay) = Z.pos mx * 2 ^ (ex - ez) + Z.pos my * 2 ^ (ey - ez)) by lia.
  set (hi := Z.max ex ey).
  assert (Hhi' : hi = Z.max ex ey) by reflexivity. clearbody hi.
  assert (Hpx : 1 <= 2 ^ (ex - ez) <= 2 ^ (hi - ez)).
  { split; [pose proof (Z.pow_pos_nonneg 2 (ex - ez)); lia|].
    apply Z.pow_le_mono_r; lia. }
  assert (Hpy : 1 <= 2 ^ (ey - ez) <= 2 ^ (hi - ez)).
  { split; [pose proof (Z.pow_pos_nonneg 2 (ey - ez)); lia|].
    apply Z.pow_le_mono_r; lia. }
  change (2 ^ 52) with 4503599627370496 in *. change (2 ^ 53) with 9007199254740992 in *.
  assert (Hlow : 2 ^ 52 <= Z.pos (ax + ay))
    by (change (2 ^ 52) with 4503599627370496; nia).
  assert (Hup : Z.pos (ax + ay) < 2 ^ (54 + (hi - ez))).
  { rewrite Z.pow_add_r by lia. change (2 ^ 54) with 18014398509481984. nia. }
  pose proof (Zdigits2_lower _ 52 ltac:(lia) Hlow) as Hd1.
  pose proof (Zdigits2_upper (Z.pos (ax + ay)) _ ltac:(lia) Hup) as Hd2.
  change (Zdigits2 (Z.pos (ax + ay))) with (Z.pos (digits2_pos (ax + ay))) in Hd1, Hd2.
  rewrite shl_align_id
    by (unfold fexp, SpecFloat.emin; change prec with 53; change emax with 1024; lia).
  eapply normal_pos_weaken; [| |apply binary_round_aux_normal]; try done;
    change (Zdigits2 (Z.pos (ax + ay))) with (Z.pos (digits2_pos (ax + ay))); lia.
Qed.

(** [float64(n)] of a positive integer below 2^53 is a normal number. *)
Lemma of_uint63_normal n :
  0 < n < 2 ^ 53 →
  normal_pos (-52) 1 (Prim2SF (PrimFloat.of_uint63 (Uint63.of_Z n))).
Proof.
  intros Hn. change (2 ^ 53) with 9007199254740992 in Hn.
  rewrite of_uint63_spec, Uint63.of_Z_spec.
  rewrite Z.mod_small by (change Uint63.wB with 9223372036854775808; lia).
  destruct n as [|p|p]; try lia. cbn [binary_normalize]. unfold binary_round.
  pose proof (digits2_pos_bounds p) as Hdp.
  set (dp := Z.pos (digits2_pos p)) in *.
  assert (Hdp53 : dp <= 53).
  { pose proof (Zdigits2_upper (Z.pos p) 53 ltac:(lia)
                  ltac:(change (2 ^ 53) with 9007199254740992; lia)). done. }
  assert (Hfexp : fexp prec emax (dp + 0) = dp - 53)
    by (unfold fexp, SpecFloat.emin; change prec with 53; change emax with 1024; lia).
  rewrite Hfexp.
  destruct (shl_align_value p 0 (dp - 53) ltac:(lia)) as [Hv He].
  destruct (shl_align p 0 (dp - 53)) as [mz ez]. cbn [fst snd] in Hv, He. subst ez.
  assert (HM : 2 ^ 52 <= Z.pos mz < 2 ^ 53).
  { rewrite Hv. replace (0 - (dp - 53)) with (53 - dp) by lia.
    assert (E52 : 2 ^ 52 = 2 ^ (dp - 1) * 2 ^ (53 - dp))
      by (rewrite <- Z.pow_add_r by lia; f_equal; lia).
    assert (E53 : 2 ^ 53 = 2 ^ dp * 2 ^ (53 - dp))
      by (rewrite <- Z.pow_add_r by lia; f_equal; lia).
    rewrite E52, E53.
    pose proof (Z.pow_pos_nonneg 2 (53 - dp) ltac:(lia) ltac:(lia)). nia. }
  pose proof (normal_pos_digits mz HM) as Hdz.
  eapply normal_pos_weaken; [| |apply binary_round_aux_normal]; try lia.
Qed.

(** *** Comparison and value *)

(** What validity says of a finite binary64 number. *)
Lemma bounded_inv m e :
  bounded prec emax m e = true →
  -1074 <= e ∧ Z.pos m < 2 ^ 53 ∧ (-1074 < e → 2 ^ 52 <= Z.pos m).
Proof.
  unfold bounded, canonical_mantissa, fexp, SpecFloat.emin.
  change prec with 53. change emax with 1024.
  intros [Hcan _]%andb_true_iff. apply Z.eqb_eq in Hcan.
  pose proof (digits2_pos_bounds m) as [Hl Hu].
  set (d := Z.pos (digits2_pos m)) in *.
  assert (Hd0 : 0 < d) by done. clearbody d.
  assert (Hd : d <= 53) by lia.
  split; [lia|]. split.
  - pose proof (Z.pow_le_mono_r 2 d 53 ltac:(lia) Hd). lia.
  - intros He. assert (d = 53) as Hd53 by lia. rewrite Hd53 in Hl. exact Hl.
Qed.

Lemma scaled_value_lt m1 e1 m2 e2 :
  -1074 <= e1 → e1 < e2 → Z.pos m1 < 2 ^ 53 → 2 ^ 52 <= Z.pos m2 →
  scaled_value m1 e1 < scaled_value m2 e2.
Proof.
  intros He1 Hlt Hm1 Hm2. unfold scaled_value.
  change (2 ^ 53) with 9007199254740992 in Hm1. change (2 ^ 52) with 4503599627370496 in Hm2.
  assert (E : 2 ^ (e2 + 1074) = 2 ^ (e2 - e1 - 1) * (2 * 2 ^ (e1 + 1074))).
  { rewrite <- Z.pow_succ_r, <- Z.pow_add_r by lia. f_equal. lia. }
  rewrite E.
  pose proof (Z.pow_pos_nonneg 2 (e1 + 1074) ltac:(lia) ltac:(lia)).
  pose proof (Z.pow_pos_nonneg 2 (e2 - e1 - 1) ltac:(lia) ltac:(lia)). nia.
Qed.

(** On valid positive numbers the comparison of binary64 is the comparison of
    their values. *)
Lemma SFleb_scaled_value m1 e1 m2 e2 :
  bounded prec emax m1 e1 = true → bounded prec emax m2 e2 = true →
  SFleb (S754_finite false m1 e1) (S754_finite false m2 e2) = true
  ↔ scaled_value m1 e1 <= scaled_value m2 e2.
Proof.
  intros (He1 & Hu1 & Hn1)%bounded_inv (He2 & Hu2 & Hn2)%bounded_inv.
  unfold SFleb, SFcompare. fold (Pos.compare m1 m2).
  destruct (Z.compare_spec e1 e2) as [->|Hlt|Hgt].
  - unfold scaled_value.
    pose proof (Z.pow_pos_nonneg 2 (e2 + 1074) ltac:(lia) ltac:(lia)).
    destruct (Pos.compare_spec m1 m2); split; intros; try done; try nia.
  - pose proof (scaled_value_lt m1 e1 m2 e2 He1 Hlt Hu1 (Hn2 ltac:(lia))).
    split; [lia|done].
  - pose proof (scaled_value_lt m2 e2 m1 e1 He2 ltac:(lia) Hu2 (Hn1 ltac:(lia))).
    split; [done|lia].
Qed.

End Binary64.

(** ** The sampler backend *)

Section DecayFacts.
Variable df : float.

Lemma decay_step_lookup m k sig :
  decay_step df k m !! sig =
    if decide (sig = k) then decayed df (score_of m k) else m !! sig.
Proof.
  unfold decay_step, decayed.
  destruct (df * minSignatureScoreOffset <? score_of m k)%float;
    destruct (decide (sig = k)) as [->|Hne].
  - apply lookup_insert_eq.
  - by apply lookup_insert_ne.
  - apply lookup_delete_eq.
  - by apply lookup_delete_ne.
Qed.

(** The loop over distinct keys decays or drops each visited entry and
    leaves the others alone, whatever the order of the keys. *)
Lemma decay_loop ks :
  NoDup ks → ∀ m sig,
  fold_left (λ m k, decay_step df k m) ks m !! sig =
    if decide (sig ∈ ks) then decayed df (score_of m sig) else m !! sig.
Proof.
  induction 1 as [|k ks Hk Hnd IH]; intros m sig; cbn [fold_left].
  - case_decide as Hin; [|done]. by apply elem_of_nil in Hin.
  - rewrite IH. unfold score_of at 1. rewrite !decay_step_lookup.
    repeat case_decide; subst; try done.
    + exfalso. rewrite elem_of_cons in *. tauto.
    + exfalso. rewrite elem_of_cons in *. tauto.
    + exfalso. rewrite elem_of_cons in *. tauto.
Qed.
End DecayFacts.

Lemma DecayScore_lookup b sig :
  scores (DecayScore b) !! sig = scores b !! sig ≫= decayed (decayFactor b).
Proof.
  simpl. rewrite decay_loop by apply NoDup_fst_map_to_list.
  destruct (scores b !! sig) as [v|] eqn:Hv.
  - rewrite decide_True.
    + unfold score_of. by rewrite Hv.
    + apply list_elem_of_fmap. exists (sig, v). split; [done|].
      by apply elem_of_map_to_list.
  - rewrite decide_False; [done|].
    intros [[k v] [-> Hin%elem_of_map_to_list]]%list_elem_of_fmap.
    simpl in Hv. congruence.
Qed.

Lemma DecayScore_scores b :
  scores (DecayScore b) = omap (decayed (decayFactor b)) (scores b).
Proof. apply map_eq. intros sig. by rewrite DecayScore_lookup, lookup_omap. Qed.

(** C4. Decay contraction: right after [DecayScore], whatever the backend
    was, every signature still in the scores map holds its former score
    divided by the decay factor, and the total and sampled scores are their
    former values divided by the decay factor. *)
Theorem DecayScore_contraction (b : Backend) :
  (∀ sig v', scores (DecayScore b) !! sig = Some v' →
     ∃ v, scores b !! sig = Some v ∧ v' = (v / decayFactor b)%float)
  ∧ totalScore (DecayScore b) = (totalScore b / decayFactor b)%float
  ∧ sampledScore (DecayScore b) = (sampledScore b / decayFactor b)%float.
Proof.
  split; [|done]. intros sig v'. rewrite DecayScore_lookup.
  destruct (scores b !! sig) as [v|]; [|done]. simpl. unfold decayed.
  destruct (_ <? _)%float; [|done]. intros [= <-]. eauto.
Qed.

Section Reachable.
Variable d : Z.

Lemma run_snoc ops o : run d (ops ++ [o]) = apply_op (run d ops) o.
Proof. unfold run. by rewrite fold_left_app. Qed.

Lemma apply_op_countScaleFactor b o :
  countScaleFactor (apply_op b o) = countScaleFactor b.
Proof. by destruct o. Qed.

Lemma run_countScaleFactor ops :
  countScaleFactor (run d ops) = countScaleFactor (NewBackend d).
Proof.
  induction ops as [|o ops IH] using rev_ind; [done|].
  by rewrite run_snoc, apply_op_countScaleFactor.
Qed.

Lemma NewBackend_ok : backend_ok (NewBackend d).
Proof.
  repeat split. intros sig v. simpl. by rewrite lookup_empty.
Qed.

Lemma apply_op_ok b o : backend_ok b → backend_ok (apply_op b o).
Proof.
  intros (Hdf & Htot & Hsam & Hsc). destruct o as [sig| |]; simpl.
  - repeat split; try done.
    + by apply float_add_nonneg.
    + simpl. apply map_Forall_insert_2; [|done].
      apply float_add_nonneg; [|done]. unfold score_of.
      destruct (scores b !! sig) as [v|] eqn:Hv; [by apply (Hsc sig)|done].
  - repeat split; try done. by apply float_add_nonneg.
  - repeat split; try done.
    + simpl. rewrite Hdf. by apply float_div_nine_eighths_nonneg.
    + simpl. rewrite Hdf. by apply float_div_nine_eighths_nonneg.
    + intros sig v'. rewrite DecayScore_lookup.
      destruct (scores b !! sig) as [v|] eqn:Hv; [|done]. simpl. unfold decayed.
      destruct (_ <? _)%float; [|done]. intros [= <-]. rewrite Hdf.
      apply float_div_nine_eighths_nonneg. by apply (Hsc sig).
Qed.

(** Every backend reached from [NewBackend] keeps its scores non-negative
    numbers and its decay factor at 1.125. *)
Lemma run_ok ops : backend_ok (run d ops).
Proof.
  induction ops as [|o ops IH] using rev_ind; [apply NewBackend_ok|].
  rewrite run_snoc. by apply apply_op_ok.
Qed.
End Reachable.

Lemma threshold_nonneg : nonneg (1.125 * minSignatureScoreOffset)%float.
Proof. reflexivity. Qed.

(** The test of [DecayScore] on the threshold [1.125 * 0.01], which is
    rounded, holds of exactly the scores that decay to at most 0.01 in exact
    arithmetic: no binary64 number lies between the rounded threshold and
    9/8 of the offset. *)
Lemma threshold_exact v :
  nonneg v →
  (v <=? 1.125 * minSignatureScoreOffset)%float = true ↔ post_decay_at_most_offset v.
Proof.
  unfold nonneg, post_decay_at_most_offset. rewrite leb_zero_nonneg, leb_spec.
  change (Prim2SF (1.125 * minSignatureScoreOffset))
    with (S754_finite false 6485183463413514 (-59)).
  change (Prim2SF minSignatureScoreOffset)
    with (S754_finite false 5764607523034235 (-59)).
  pose proof (Prim2SF_valid v) as Hv.
  destruct (Prim2SF v) as [s|[]| |[] m e]; try done. intros _.
  rewrite SFleb_scaled_value by done.
  apply bounded_inv in Hv as (He & Hu & Hn). unfold scaled_value.
  change (-59 + 1074) with 1015.
  destruct (Z_lt_le_dec e (-59)) as [Hlow|Hhigh].
  - (* below the binade of the threshold: both sides hold *)
    assert (Z.pos m * 2 ^ (e + 1074) < 2 ^ 52 * 2 ^ 1015).
    { change (2 ^ 53) with 9007199254740992 in Hu.
      assert (E : 2 ^ 1015 = 2 ^ (-60 - e) * (2 * 2 ^ (e + 1074))).
      { rewrite <- Z.pow_succ_r, <- Z.pow_add_r by lia. f_equal. lia. }
      rewrite E.
      pose proof (Z.pow_pos_nonneg 2 (e + 1074) ltac:(lia) ltac:(lia)).
      pose proof (Z.pow_pos_nonneg 2 (-60 - e) ltac:(lia) ltac:(lia)).
      change (2 ^ 52) with 4503599627370496. nia. }
    change (2 ^ 52) with 4503599627370496 in *.
    pose proof (Z.pow_pos_nonneg 2 1015 ltac:(lia) ltac:(lia)). split; intros; nia.
  - (* from the binade of the threshold on: values are multiples of 2^1015 *)
    replace (e + 1074) with ((e + 59) + 1015) by lia.
    rewrite Z.pow_add_r by lia.
    pose proof (Z.pow_pos_nonneg 2 1015 ltac:(lia) ltac:(lia)).
    pose proof (Z.pow_pos_nonneg 2 (e + 59) ltac:(lia) ltac:(lia)).
    set (P := 2 ^ 1015) in *. set (k := Z.pos m * 2 ^ (e + 59)).
    replace (Z.pos m * (2 ^ (e + 59) * P)) with (k * P) by (unfold k; lia).
    split; intros; nia.
Qed.

(** C6. Eviction: in a backend reached from [NewBackend], [DecayScore] removes
    an entry exactly when its score before the decay is at most
    [decayFactor * minSignatureScoreOffset], which is exactly when the score
    would decay to at most [minSignatureScoreOffset]; an entry that is not
    removed holds its decayed score. [GetCardinality] then counts the entries
    above the threshold and no other, so it no longer counts a removed
    signature. At the threshold itself the decayed score is exactly
    [minSignatureScoreOffset], and just above it the decayed score is above
    [minSignatureScoreOffset]. *)
Theorem DecayScore_eviction (d : Z) (ops : list op) :
  let b := run d ops in
  let threshold := (decayFactor b * minSignatureScoreOffset)%float in
  (∀ sig v, scores b !! sig = Some v →
     (scores (DecayScore b) !! sig = None ↔ (v <=? threshold)%float = true)
     ∧ ((v <=? threshold)%float = true ↔ post_decay_at_most_offset v)
     ∧ (scores (DecayScore b) !! sig = Some (v / decayFactor b)%float
        ↔ (v <=? threshold)%float = false))
  ∧ (GetCardinality (DecayScore b)).1
      = Z.of_nat (size (filter (λ kv : Z * float, (kv.2 <=? threshold)%float = false)
                               (scores b)))
  ∧ (∀ sig, scores (DecayScore b) !! sig = None → sig ∉ dom (scores (DecayScore b)))
  ∧ (threshold / decayFactor b)%float = minSignatureScoreOffset
  ∧ (minSignatureScoreOffset <? next_up threshold / decayFactor b)%float = true.
Proof.
  intros b threshold. destruct (run_ok d ops) as (Hdf & _ & _ & Hsc). fold b in Hdf, Hsc.
  assert (Hlookup : ∀ sig v, scores b !! sig = Some v →
            scores (DecayScore b) !! sig =
              if (v <=? threshold)%float then None else Some (v / decayFactor b)%float).
  { intros sig v Hv. rewrite DecayScore_lookup, Hv. simpl. unfold decayed. fold threshold.
    pose proof (float_leb_not_ltb threshold v) as Hcmp.
    unfold threshold in Hcmp at 1. rewrite Hdf in Hcmp.
    specialize (Hcmp threshold_nonneg (Hsc sig v Hv)).
    destruct (threshold <? v)%float; destruct (v <=? threshold)%float; try done.
    - destruct Hcmp as [Hcmp _]. by specialize (Hcmp eq_refl).
    - destruct Hcmp as [_ Hcmp]. by specialize (Hcmp eq_refl). }
  split; [|split; [|split; [|split]]].
  - intros sig v Hv. rewrite (Hlookup sig v Hv). split; [|split].
    + destruct (v <=? threshold)%float; split; done.
    + unfold threshold. rewrite Hdf. apply threshold_exact. by apply (Hsc sig).
    + destruct (v <=? threshold)%float; split; done.
  - unfold GetCardinality. cbn [fst]. f_equal. rewrite <- !size_dom. f_equal.
    apply set_eq. intros sig. rewrite !elem_of_dom. unfold is_Some.
    setoid_rewrite map_lookup_filter_Some. split.
    + intros [v' Hv']. destruct (scores b !! sig) as [v|] eqn:Hv.
      * pose proof (Hlookup sig v Hv) as HL. rewrite Hv' in HL.
        exists v. split; [done|]. simpl. by destruct (v <=? threshold)%float.
      * rewrite DecayScore_lookup, Hv in Hv'. done.
    + intros [v [Hv Hgt]]. simpl in Hgt. rewrite (Hlookup sig v Hv), Hgt. eauto.
  - intros sig Hnone. by apply not_elem_of_dom.
  - unfold threshold. rewrite Hdf. reflexivity.
  - unfold threshold. rewrite Hdf. reflexivity.
Qed.

Lemma normal_pos_positive lo hi x :
  normal_pos lo hi x → SFltb (S754_zero false) x = true ∧ SFltb x (S754_infinity false) = true.
Proof. by intros (m & e & -> & _). Qed.

Lemma of_int64_zero : Prim2SF (Float64.of_int64 0) = S754_zero false.
Proof. reflexivity. Qed.

Lemma of_int64_normal n :
  0 < n < 2 ^ 53 → normal_pos (-52) 1 (Prim2SF (Float64.of_int64 n)).
Proof.
  intros Hn. unfold Float64.of_int64.
  destruct (Z.ltb_spec n 0); [lia|]. by apply of_uint63_normal.
Qed.

Lemma one_billion_normal : normal_pos (-23) (-23) (Prim2SF 1000000000%float).
Proof. exists 8388608000000000%positive, (-23). repeat split; (done || lia). Qed.

Lemma nine_normal : normal_pos (-49) (-49) (Prim2SF (1.125 / (1.125 - 1))%float).
Proof. exists 5066549580791808%positive, (-49). repeat split; (done || lia). Qed.

(** [Seconds] of a positive duration is a positive normal number. *)
Lemma Seconds_normal d :
  0 < d <= Int64.max_int → normal_pos (-82) 3 (Prim2SF (Seconds d)).
Proof.
  intros Hd. unfold Int64.max_int in Hd. unfold Seconds.
  rewrite Z.quot_div_nonneg, Z.rem_mod_nonneg by lia.
  pose proof (Z.mod_pos_bound d 1000000000 ltac:(lia)) as Hns.
  pose proof (Z.div_pos d 1000000000 ltac:(lia) ltac:(lia)) as Hs0.
  assert (Hs1 : d / 1000000000 < 2 ^ 53).
  { apply Z.div_lt_upper_bound; [lia|]. change (2 ^ 53) with 9007199254740992. lia. }
  pose proof (Z.div_mod d 1000000000 ltac:(lia)) as Hdm.
  set (sec := d / 1000000000) in *. set (nsec := d mod 1000000000) in *.
  rewrite add_spec, div_spec.
  destruct (Z.eq_dec nsec 0) as [Hn0|Hn0].
  - rewrite Hn0, of_int64_zero.
    destruct (of_int64_normal sec ltac:(lia)) as (m & e & -> & Hm & He).
    destruct one_billion_normal as (m1 & e1 & -> & _). cbn.
    exists m, e. repeat split; lia.
  - assert (Hq : normal_pos (-82) (-27)
                   (SF64div (Prim2SF (Float64.of_int64 nsec)) (Prim2SF 1000000000%float))).
    { eapply normal_pos_weaken;
        [| |apply (SFdiv_normal (-52) 1 (-23) (-23));
             [apply of_int64_normal|apply one_billion_normal|..]]; lia. }
    destruct (Z.eq_dec sec 0) as [Hs|Hs].
    + rewrite Hs, of_int64_zero.
      destruct Hq as (m & e & -> & Hm & He). cbn. exists m, e. repeat split; lia.
    + eapply normal_pos_weaken;
        [| |apply (SFadd_normal (-52) 1 (-82) (-27));
             [apply of_int64_normal|exact Hq|..]]; lia.
Qed.

(** A positive decay period gives a positive finite count scale factor. *)
Lemma NewBackend_countScaleFactor_pos d :
  0 < d <= Int64.max_int →
  (0 <? countScaleFactor (NewBackend d))%float = true
  ∧ (countScaleFactor (NewBackend d) <? infinity)%float = true.
Proof.
  intros Hd. cbn [NewBackend countScaleFactor].
  rewrite !ltb_spec, mul_spec.
  apply (normal_pos_positive (-79) 8).
  eapply normal_pos_weaken;
    [| |apply (SFmul_normal (-49) (-49) (-82) 3);
         [apply nine_normal|by apply Seconds_normal|..]]; lia.
Qed.

(** C8. Upper bound: in every backend reached from [NewBackend d] by
    [CountSignature], [CountSample] and [DecayScore], for a positive decay
    period [d], [GetUpperSampledScore] is at least [GetSampledScore]: the
    sampled score stays a non-negative number, the count scale factor is a
    positive finite number, and multiplying a non-negative binary64 number by
    1.125 does not decrease it. *)
Theorem GetUpperSampledScore_upper_bound (d : Z) (ops : list op) :
  0 < d <= Int64.max_int →
  ((GetSampledScore (run d ops)).1 <=? (GetUpperSampledScore (run d ops)).1)%float = true.
Proof.
  intros Hd. destruct (NewBackend_countScaleFactor_pos d Hd) as [Hpos Hfin].
  destruct (run_ok d ops) as (Hdf & _ & Hsam & _).
  unfold GetUpperSampledScore, GetSampledScore. cbn [fst].
  rewrite Hdf, run_countScaleFactor.
  apply float_mul_nine_eighths_ge. by apply float_div_nonneg.
Qed.

(** The score of a signature the map does not hold, under a positive count
    scale factor. *)
Lemma GetSignatureScore_None (b : Backend) (sig : Z) :
  (0 <? countScaleFactor b)%float = true →
  scores b !! sig = None →
  GetSignatureScore b sig = (0%float, b).
Proof.
  intros Hpos Hnone. unfold GetSignatureScore, score_of. rewrite Hnone. simpl.
  by rewrite float_zero_div_pos.
Qed.

(** A signature that was never counted is not in the scores map. *)
Lemma never_counted_absent (d : Z) (ops : list op) (sig : Z) :
  OpCountSignature sig ∉ ops → scores (run d ops) !! sig = None.
Proof.
  induction ops as [|o ops IH] using rev_ind; intros Hnot; [done|].
  rewrite run_snoc. rewrite elem_of_app, list_elem_of_singleton in Hnot.
  specialize (IH ltac:(tauto)). destruct o as [sig'| |]; cbn [apply_op].
  - simpl. rewrite lookup_insert_ne; [done|]. intros ->. tauto.
  - done.
  - by rewrite DecayScore_lookup, IH.
Qed.

(** C10. In a backend reached from [NewBackend d], for a positive decay
    period [d], a signature that is not in the scores map has score exactly 0
    and the lookup leaves the backend as it was; a signature is not in the map
    if it was never passed to [CountSignature], and is not in it any more once
    [DecayScore] has dropped it. *)
Theorem GetSignatureScore_absent (d : Z) (ops : list op) (sig : Z) :
  0 < d <= Int64.max_int →
  (scores (run d ops) !! sig = None →
     GetSignatureScore (run d ops) sig = (0%float, run d ops))
  ∧ (OpCountSignature sig ∉ ops →
     GetSignatureScore (run d ops) sig = (0%float, run d ops))
  ∧ (decayed (decayFactor (run d ops)) (score_of (scores (run d ops)) sig) = None →
     scores (DecayScore (run d ops)) !! sig = None
     ∧ GetSignatureScore (DecayScore (run d ops)) sig = (0%float, DecayScore (run d ops))).
Proof.
  intros Hd. destruct (NewBackend_countScaleFactor_pos d Hd) as [Hpos _].
  rewrite <- (run_countScaleFactor d ops) in Hpos.
  split; [by apply GetSignatureScore_None|].
  split; [intros Hnot; by apply GetSignatureScore_None, never_counted_absent|].
  intros Hdec.
  assert (Hnone : scores (DecayScore (run d ops)) !! sig = None).
  { rewrite DecayScore_lookup. unfold score_of in Hdec.
    by destruct (scores (run d ops) !! sig). }
  split; [done|]. by apply GetSignatureScore_None.
Qed.

(** C9. [Stop] closes the exit channel; closing it again panics. Two calls in
    sequence therefore never both return. *)
Theorem Stop_twice_panics (b : Backend) :
  Stop b = match exit b with
           | Open => Some (set_exit b Closed)
           | Closed => None
           end
  ∧ (Stop b ≫= Stop) = None.
Proof. unfold Stop. by destruct (exit b). Qed.

(** On a fresh backend the first [Stop] returns and the second panics. *)
Lemma Stop_twice_counterexample :
  ∃ b1, Stop (NewBackend one_second) = Some b1 ∧ Stop b1 = None.
Proof. eexists. split; reflexivity. Qed.

(** C5, at the input where the code leaves it. One signature is counted once
    and the score decays forty times: the entry has been dropped, so the sum of
    the signature scores is 0, while the total score is still about 0.009; the
    two do not agree within any relative tolerance below 1. *)
Theorem DecayScore_total_drifts_from_sum :
  let b := run one_second count_then_decay in
  scores b = ∅
  ∧ sum_scores b = 0%float
  ∧ totalScore b = 0x1.26adcc42519d4p-7%float
  ∧ within_tolerance tolerance (totalScore b) (sum_scores b) = false.
Proof. vm_compute. repeat split; reflexivity. Qed.

(** A decay period of one second; two samples with a decay tick between. *)
Lemma GetUpperSampledScore_upper_bound_witness :
  ((GetSampledScore (run one_second [OpCountSample; OpDecayScore; OpCountSample])).1
   <=? (GetUpperSampledScore (run one_second [OpCountSample; OpDecayScore; OpCountSample])).1)%float
  = true.
Proof.
  apply (GetUpperSampledScore_upper_bound one_second
           [OpCountSample; OpDecayScore; OpCountSample]).
  unfold one_second, Int64.max_int. lia.
Defined.

(** Signature 8 is never counted; signature 7 is counted once, survives
    thirty-nine decay ticks and is dropped by the fortieth. *)
Lemma GetSignatureScore_absent_witness :
  GetSignatureScore (run one_second count_then_decay) 8
    = (0%float, run one_second count_then_decay)
  ∧ GetSignatureScore
      (DecayScore (run one_second (OpCountSignature 7 :: repeat OpDecayScore 39))) 7
    = (0%float, DecayScore (run one_second (OpCountSignature 7 :: repeat OpDecayScore 39))).
Proof.
  assert (Hd : 0 < one_second <= Int64.max_int)
    by (unfold one_second, Int64.max_int; lia).
  split.
  - destruct (GetSignatureScore_absent one_second count_then_decay 8 Hd) as (H & _ & _).
    apply H. vm_compute. reflexivity.
  - destruct (GetSignatureScore_absent one_second
                (OpCountSignature 7 :: repeat OpDecayScore 39) 7 Hd) as (_ & _ & H).
    apply H. vm_compute. reflexivity.
Defined.

(** ** The sampler backend: counting and decaying *)

(** X11. [CountSignature] on a signature the map does not hold adds one entry
    of score 1; on a signature it holds it adds no entry. In both cases the
    scores of all other signatures and the sampled score read as before. *)
Theorem CountSignature_new_or_known (b : Backend) (sig : Z) :
  (GetCardinality (CountSignature b sig)).1
    = (GetCardinality b).1 + (if decide (is_Some (scores b !! sig)) then 0 else 1)
  ∧ (scores b !! sig = None → scores (CountSignature b sig) !! sig = Some 1%float)
  ∧ (∀ sig', sig' ≠ sig →
       (GetSignatureScore (CountSignature b sig) sig').1 = (GetSignatureScore b sig').1)
  ∧ (GetSampledScore (CountSignature b sig)).1 = (GetSampledScore b).1.
Proof.
  split; [|split; [|split]].
  - unfold GetCardinality. cbn [fst CountSignature scores].
    case_decide as Hin.
    + destruct Hin as [v Hv]. rewrite map_size_insert_Some by eauto. lia.
    + rewrite map_size_insert_None; [lia|]. by apply eq_None_not_Some.
  - intros Hnone. cbn [CountSignature scores]. rewrite lookup_insert_eq.
    unfold score_of. by rewrite Hnone.
  - intros sig' Hne. unfold GetSignatureScore, score_of.
    cbn [fst CountSignature scores countScaleFactor].
    by rewrite lookup_insert_ne.
  - done.
Qed.

(** X12. [DecayScore] never adds a signature: the signatures after it are
    among those before it, so [GetCardinality] does not grow, and an empty
    scores map stays empty. *)
Theorem DecayScore_never_adds (b : Backend) :
  dom (scores (DecayScore b)) ⊆ dom (scores b)
  ∧ (GetCardinality (DecayScore b)).1 <= (GetCardinality b).1
  ∧ (scores b = ∅ → scores (DecayScore b) = ∅).
Proof.
  assert (Hsub : dom (scores (DecayScore b)) ⊆ dom (scores b)).
  { intros sig [v Hv]%elem_of_dom. rewrite DecayScore_lookup in Hv.
    apply elem_of_dom. destruct (scores b !! sig); [eauto|done]. }
  split; [done|]. split.
  - unfold GetCardinality. cbn [fst]. rewrite <- !size_dom.
    apply inj_le, subseteq_size, Hsub.
  - intros He. apply map_eq. intros sig. rewrite DecayScore_lookup, He.
    by rewrite !lookup_empty.
Qed.

(** X13. In every backend reached from [NewBackend d] by [CountSignature],
    [CountSample] and [DecayScore], for a positive decay period [d], the
    score of every signature, the sampled score and the total score read as
    numbers that are not negative (and so are never NaN). *)
Theorem scores_never_negative (d : Z) (ops : list op) (sig : Z) :
  0 < d <= Int64.max_int →
  nonneg (GetSignatureScore (run d ops) sig).1
  ∧ nonneg (GetSampledScore (run d ops)).1
  ∧ nonneg (GetTotalScore (run d ops)).1.
Proof.
  intros Hd. destruct (NewBackend_countScaleFactor_pos d Hd) as [Hpos Hfin].
  destruct (run_ok d ops) as (_ & Htot & Hsam & Hsc).
  unfold GetSignatureScore, GetSampledScore, GetTotalScore, nonneg. cbn [fst].
  rewrite run_countScaleFactor.
  split; [|split]; apply float_div_nonneg; try done.
  unfold score_of. destruct (scores (run d ops) !! sig) as [v|] eqn:Hv; [|done].
  by apply (Hsc sig).
Qed.

Lemma scores_never_negative_witness :
  nonneg (GetSignatureScore (run one_second count_then_decay) 7).1
  ∧ nonneg (GetSampledScore (run one_second count_then_decay)).1
  ∧ nonneg (GetTotalScore (run one_second count_then_decay)).1.
Proof.
  apply (scores_never_negative one_second count_then_decay 7).
  unfold one_second, Int64.max_int. lia.
Defined.

(** ** Binary64 arithmetic: the round bit *)

Lemma iter_pos_comm {A : Type} (f : A → A) n : ∀ x,
  SpecFloat.iter_pos f n (f x) = f (SpecFloat.iter_pos f n x).
Proof.
  induction n as [n IH|n IH|]; intros x; simpl; [|by rewrite !IH|done].
  by rewrite !IH.
Qed.

Lemma iter_pos_succ {A : Type} (f : A → A) n : ∀ x,
  SpecFloat.iter_pos f (Pos.succ n) x = f (SpecFloat.iter_pos f n x).
Proof.
  induction n as [n IH|n IH|]; intros x; simpl.
  - by rewrite !IH, !iter_pos_comm.
  - by rewrite !iter_pos_comm.
  - done.
Qed.

Lemma shr_1_r r : 0 <= shr_m r → shr_r (shr_1 r) = Z.odd (shr_m r).
Proof.
  destruct r as [m r s]. cbn [shr_m]. intros Hm.
  by destruct m as [|[p|p|]|p]; cbn [shr_1 shr_r]; try lia.
Qed.

(** The round bit a right shift leaves: the last digit shifted out. *)
Lemma iter_shr_1_r n r :
  0 <= shr_m r →
  shr_r (SpecFloat.iter_pos shr_1 n r) = Z.odd (shr_m r / 2 ^ (Z.pos n - 1)).
Proof.
  intros Hr. induction n as [|n IH] using Pos.peano_ind.
  - simpl SpecFloat.iter_pos. rewrite shr_1_r by done. by rewrite Z.div_1_r.
  - rewrite iter_pos_succ, shr_1_r.
    + rewrite iter_shr_1 by done. f_equal. f_equal. f_equal. lia.
    + apply (iter_pos_invariant (λ r, 0 <= shr_m r)); auto using shr_1_nonneg.
Qed.

Lemma round_nearest_even_floor r :
  shr_r r = false → round_nearest_even (shr_m r) (loc_of_shr_record r) = shr_m r.
Proof. destruct r as [m [] []]; simpl; done. Qed.

(** Adding 1 to a binary64 number of at least 2^54 leaves it as it is: 1 is
    less than half a unit in its last place. *)
Lemma SFadd_one_absorbed mx ex :
  2 ^ 52 <= Z.pos mx < 2 ^ 53 → 2 <= ex <= 971 →
  SFadd prec emax (S754_finite false mx ex) (S754_finite false 4503599627370496 (-52))
  = S754_finite false mx ex.
Proof.
  intros Hmx Hex. cbn [SFadd cond_Zopp].
  replace (Z.min ex (-52)) with (-52) by lia.
  destruct (shl_align_value mx ex (-52) ltac:(lia)) as [Hx _].
  rewrite (shl_align_id 4503599627370496 (-52) (-52)) by lia. cbn [fst].
  set (ax := (shl_align mx ex (-52)).1) in *.
  change (Z.pos ax + 4503599627370496) with (Z.pos (ax + 4503599627370496)).
  cbn [binary_normalize]. unfold binary_round.
  set (M := (ax + 4503599627370496)%positive).
  assert (HM : Z.pos M = Z.pos mx * 2 ^ (ex + 52) + 2 ^ 52).
  { unfold M. rewrite Pos2Z.inj_add, Hx.
    replace (ex - -52) with (ex + 52) by lia. reflexivity. }
  assert (Hp : 2 ^ (ex + 52) = 4 * 2 ^ (ex - 2) * 2 ^ 52).
  { change 4 with (2 ^ 2). rewrite <- !Z.pow_add_r by lia. f_equal. lia. }
  pose proof (Z.pow_pos_nonneg 2 (ex - 2) ltac:(lia) ltac:(lia)) as Hpp.
  assert (Hd : Z.pos (digits2_pos M) = ex + 105).
  { change (Z.pos (digits2_pos M)) with (Zdigits2 (Z.pos M)).
    apply Zdigits2_unique; [lia|]. rewrite HM.
    assert (E1 : 2 ^ (ex + 105 - 1) = 2 ^ 52 * 2 ^ (ex + 52))
      by (rewrite <- Z.pow_add_r by lia; f_equal; lia).
    assert (E2 : 2 ^ (ex + 105) = 2 ^ 53 * 2 ^ (ex + 52))
      by (rewrite <- Z.pow_add_r by lia; f_equal; lia).
    rewrite E1, E2, Hp.
    change (2 ^ 52) with 4503599627370496 in *. change (2 ^ 53) with 9007199254740992 in *.
    nia. }
  rewrite Hd.
  assert (Hfexp : fexp prec emax (ex + 105 + -52) = ex).
  { unfold fexp, SpecFloat.emin. change prec with 53. change emax with 1024. lia. }
  rewrite Hfexp, shl_align_id by lia.
  unfold binary_round_aux, shr_fexp.
  change (Zdigits2 (Z.pos M)) with (Z.pos (digits2_pos M)). rewrite Hd, Hfexp.
  unfold shr at 1. destruct (ex - -52) as [|p|p] eqn:Ep; try lia.
  set (r0 := shr_record_of_loc (Z.pos M) loc_Exact).
  assert (Hr0 : shr_m r0 = Z.pos M) by done.
  assert (Hm1 : shr_m (SpecFloat.iter_pos shr_1 p r0) = Z.pos mx).
  { rewrite iter_shr_1 by (rewrite Hr0; lia). rewrite Hr0, HM.
    replace (Z.pos p) with (ex + 52) by lia.
    rewrite Z.add_comm, Z.div_add by lia.
    rewrite Z.div_small; [lia|]. rewrite Hp.
    change (2 ^ 52) with 4503599627370496. nia. }
  assert (Hr1 : shr_r (SpecFloat.iter_pos shr_1 p r0) = false).
  { rewrite iter_shr_1_r by (rewrite Hr0; lia). rewrite Hr0, HM.
    replace (Z.pos p - 1) with (ex + 51) by lia.
    assert (E : 2 ^ (ex + 52) = 2 * 2 ^ (ex + 51)).
    { rewrite <- Z.pow_succ_r by lia. f_equal. lia. }
    rewrite E.
    replace (Z.pos mx * (2 * 2 ^ (ex + 51))) with (2 * Z.pos mx * 2 ^ (ex + 51)) by lia.
    rewrite Z.add_comm, Z.div_add by lia.
    rewrite Z.div_small.
    - rewrite Z.add_0_l, Z.odd_mul. done.
    - assert (E2 : 2 ^ (ex + 51) = 2 * 2 ^ (ex - 2) * 2 ^ 52).
      { change 2 with (2 ^ 1) at 2. rewrite <- !Z.pow_add_r by lia. f_equal. lia. }
      rewrite E2. change (2 ^ 52) with 4503599627370496. nia. }
  rewrite (round_nearest_even_floor _ Hr1), Hm1.
  replace (-52 + Z.pos p) with ex by lia.
  rewrite (normal_pos_digits mx Hmx).
  assert (Hfexp2 : fexp prec emax (53 + ex) - ex = 0).
  { unfold fexp, SpecFloat.emin. change prec with 53. change emax with 1024. lia. }
  rewrite Hfexp2. cbn [shr shr_record_of_loc shr_m].
  change prec with 53. change emax with 1024.
  by destruct (Z.leb_spec ex (1024 - 53)); [|lia].
Qed.

(** Dividing a normal number by 1.125 gives a smaller normal number, one
    binade below at most. *)
Lemma SFdiv_nine_eighths_lt mx ex :
  2 ^ 52 <= Z.pos mx < 2 ^ 53 → -1073 <= ex <= 971 →
  ∃ my ey,
    SFdiv prec emax (S754_finite false mx ex) nine_eighths = S754_finite false my ey
    ∧ 2 ^ 52 <= Z.pos my < 2 ^ 53
    ∧ ex - 1 <= ey <= ex
    ∧ (ey < ex ∨ Z.pos my < Z.pos mx).
Proof.
  intros Hmx Hex. unfold nine_eighths. cbn [SFdiv xorb]. unfold SFdiv_core_binary.
  rewrite (normal_pos_digits mx Hmx).
  change (Zdigits2 5066549580791808) with 53.
  unfold fexp, SpecFloat.emin. change prec with 53. change emax with 1024.
  replace (Z.min (Z.max (53 + ex - (53 + -52) - 53) (3 - 1024 - 53)) (ex - -52))
    with (ex - 1) by lia.
  replace (ex - -52 - (ex - 1)) with 53 by lia.
  rewrite Z.shiftl_mul_pow2 by lia.
  pose proof (div_eucl_div (Z.pos mx * 2 ^ 53) 5066549580791808) as Hq.
  destruct (Z.div_eucl (Z.pos mx * 2 ^ 53) 5066549580791808) as [q r]. simpl in Hq. subst q.
  set (q := Z.pos mx * 2 ^ 53 / 5066549580791808).
  change (2 ^ 52) with 4503599627370496 in *. change (2 ^ 53) with 9007199254740992 in *.
  assert (Hq1 : 9 * q <= 16 * Z.pos mx < 9 * q + 9).
  { pose proof (Z.div_mod (Z.pos mx * 9007199254740992) 5066549580791808 ltac:(lia)) as Hdm.
    pose proof (Z.mod_pos_bound (Z.pos mx * 9007199254740992) 5066549580791808 ltac:(lia)).
    fold q in Hdm. lia. }
  assert (Hqpos : 0 < q) by lia.
  destruct (binary_round_aux_cases 53 1024 false q (ex - 1) (new_location 5066549580791808 r)
              ltac:(lia))
    as (m1 & e1 & mr & m2 & e2 & H1 & Hmr & H2 & Hm2 & ->).
  unfold fexp, SpecFloat.emin in H1, H2.
  assert (Hres : 4503599627370496 <= m2 < 9007199254740992
                 ∧ ex - 1 <= e2 <= ex ∧ (e2 < ex ∨ m2 < Z.pos mx)).
  { destruct (Z_lt_le_dec q 9007199254740992) as [Hsmall|Hbig].
    - (* 53 digits: the quotient is kept, one binade below *)
      assert (Hdq : Zdigits2 q = 53).
      { apply Zdigits2_unique; [lia|].
        change (2 ^ (53 - 1)) with 4503599627370496.
        change (2 ^ 53) with 9007199254740992. lia. }
      rewrite Hdq in H1.
      destruct H1 as [(_ & -> & ->)|(Hn & _)]; [|lia].
      destruct (Z.eq_dec mr 9007199254740992) as [->|Hne].
      + change (Zdigits2 9007199254740992) with 54 in H2.
        destruct H2 as [(Hn & _)|(Hn & -> & ->)]; [lia|].
        replace (Z.max (54 + (ex - 1) - 53) (3 - 1024 - 53) - (ex - 1)) with 1 by lia.
        change (9007199254740992 / 2 ^ 1) with 4503599627370496. lia.
      + assert (Hdr : Zdigits2 mr = 53).
        { apply Zdigits2_unique; [lia|].
          change (2 ^ (53 - 1)) with 4503599627370496.
          change (2 ^ 53) with 9007199254740992. lia. }
        rewrite Hdr in H2. destruct H2 as [(Hn & -> & ->)|(Hn & _)]; lia.
    - (* 54 digits: one digit is dropped *)
      assert (Hdq : Zdigits2 q = 54).
      { apply Zdigits2_unique; [lia|].
        change (2 ^ (54 - 1)) with 9007199254740992.
        change (2 ^ 54) with 18014398509481984. lia. }
      rewrite Hdq in H1.
      destruct H1 as [(Hn & _)|(_ & -> & ->)]; [lia|].
      replace (Z.max (54 + (ex - 1) - 53) (3 - 1024 - 53) - (ex - 1)) with 1 in * by lia.
      change (2 ^ 1) with 2 in *.
      pose proof (Z.div_mod q 2 ltac:(lia)) as Hdm2.
      pose proof (Z.mod_pos_bound q 2 ltac:(lia)) as Hmod2.
      assert (Hmrb : 4503599627370496 <= mr < 9007199254740992) by lia.
      assert (Hdr : Zdigits2 mr = 53).
      { apply Zdigits2_unique; [lia|].
        change (2 ^ (53 - 1)) with 4503599627370496.
        change (2 ^ 53) with 9007199254740992. lia. }
      rewrite Hdr in H2. destruct H2 as [(Hn & -> & ->)|(Hn & _)]; lia. }
  destruct Hres as (Hm2b & He2 & Hlt).
  destruct m2 as [|p|p]; try lia.
  assert ((e2 <=? 1024 - 53) = true) as -> by (apply Z.leb_le; lia).
  exists p, e2. repeat split; lia.
Qed.

(** ** The sampler backend: what the scores map holds *)

Lemma add_one_normal v :
  score_normal v → score_normal (v + 1)%float.
Proof.
  unfold score_normal. rewrite add_spec, Prim2SF_one.
  intros (m & e & Hv & Hm & He). rewrite Hv.
  destruct (Z_le_gt_dec 2 e) as [Hbig|Hsmall].
  - rewrite SFadd_one_absorbed by (done || lia). exists m, e. done.
  - eapply normal_pos_weaken;
      [| |apply (SFadd_normal (-60) 1 (-52) (-52))]; try lia.
    + exists m, e. repeat split; (done || lia).
    + exists 4503599627370496%positive, (-52). repeat split; (done || lia).
Qed.

(** A score above the threshold of [DecayScore] has an exponent of at least
    that of the threshold. *)
Lemma above_threshold_exponent v m e :
  Prim2SF v = S754_finite false m e →
  (1.125 * minSignatureScoreOffset <? v)%float = true → -59 <= e.
Proof.
  intros Hv. rewrite ltb_spec, Hv.
  change (Prim2SF (1.125 * minSignatureScoreOffset))
    with (S754_finite false 6485183463413514 (-59)).
  unfold SFltb, SFcompare. destruct (Z.compare_spec (-59) e); (done || lia).
Qed.

(** A score that survives a decay tick comes out as a score again, and lower
    in the order of the binary64 numbers. *)
Lemma decayed_normal v v' :
  score_normal v → decayed 1.125 v = Some v' →
  score_normal v' ∧ decay_rank (Some v') < decay_rank (Some v).
Proof.
  unfold score_normal, decayed. intros (m & e & Hv & Hm & He).
  destruct (_ <? _)%float eqn:Habove; [|done]. intros [= <-].
  pose proof (above_threshold_exponent v m e Hv Habove) as Hlow.
  destruct (SFdiv_nine_eighths_lt m e Hm ltac:(lia)) as (my & ey & Hdiv & Hmy & Hey & Hlt).
  assert (Hq : Prim2SF (v / 1.125) = S754_finite false my ey).
  { by rewrite div_spec, Hv, Prim2SF_nine_eighths. }
  split.
  - exists my, ey. repeat split; (done || lia).
  - unfold decay_rank. rewrite Hq, Hv.
    change (2 ^ 52) with 4503599627370496 in *. change (2 ^ 53) with 9007199254740992 in *.
    nia.
Qed.

Lemma scores_normal_NewBackend d : scores_normal (NewBackend d).
Proof. split; [done|]. intros sig v. simpl. by rewrite lookup_empty. Qed.

Lemma scores_normal_apply_op b o : scores_normal b → scores_normal (apply_op b o).
Proof.
  intros [Hdf Hsc]. destruct o as [sig| |]; cbn [apply_op].
  - split; [done|]. cbn [CountSignature scores].
    apply map_Forall_insert_2; [|done]. unfold score_of.
    destruct (scores b !! sig) as [v|] eqn:Hv; simpl.
    + apply add_one_normal. by apply (Hsc sig).
    + exists 4503599627370496%positive, (-52). repeat split; (done || lia).
  - done.
  - split; [done|]. intros sig v'. rewrite DecayScore_lookup, Hdf.
    destruct (scores b !! sig) as [v|] eqn:Hv; [|done]. simpl. intros Hdec.
    by destruct (decayed_normal v v' (Hsc sig v Hv) Hdec).
Qed.

(** Every score the map of a reached backend holds is a positive normal
    number below 2^57: counting saturates, and decaying drops an entry before
    it leaves the normal range. *)
Lemma scores_normal_run d ops : scores_normal (run d ops).
Proof.
  induction ops as [|o ops IH] using rev_ind; [apply scores_normal_NewBackend|].
  rewrite run_snoc. by apply scores_normal_apply_op.
Qed.

Lemma NewBackend_countScaleFactor_normal d :
  0 < d <= Int64.max_int →
  normal_pos (-79) 8 (Prim2SF (countScaleFactor (NewBackend d))).
Proof.
  intros Hd. cbn [NewBackend countScaleFactor]. rewrite mul_spec.
  eapply normal_pos_weaken;
    [| |apply (SFmul_normal (-49) (-49) (-82) 3);
         [apply nine_normal|by apply Seconds_normal|..]]; lia.
Qed.

(** X14. In every backend reached from [NewBackend d], for a positive decay
    period [d], [GetSignatureScore] is positive exactly for the signatures the
    scores map holds: a signature has a positive score from its first count
    until [DecayScore] drops it, and a score of zero before and after. *)
Theorem GetSignatureScore_positive_iff_present (d : Z) (ops : list op) (sig : Z) :
  0 < d <= Int64.max_int →
  (0 <? (GetSignatureScore (run d ops) sig).1)%float = true
  ↔ is_Some (scores (run d ops) !! sig).
Proof.
  intros Hd. pose proof (NewBackend_countScaleFactor_normal d Hd) as Hcsf.
  rewrite <- (run_countScaleFactor d ops) in Hcsf.
  destruct (scores_normal_run d ops) as [_ Hsc].
  destruct (scores (run d ops) !! sig) as [v|] eqn:Hv.
  - split; [eauto|]. intros _.
    unfold GetSignatureScore, score_of. cbn [fst]. rewrite Hv. simpl.
    rewrite ltb_spec, div_spec.
    apply (normal_pos_positive (-121) 31).
    eapply normal_pos_weaken;
      [| |apply (SFdiv_normal (-60) 3 (-79) 8); [by apply (Hsc sig)|done|..]]; lia.
  - split; [|by intros [? ?]].
    rewrite GetSignatureScore_None; [done| |done].
    rewrite ltb_spec. by apply (normal_pos_positive (-79) 8).
Qed.

(** Signature 7 after thirty-nine decay ticks, signature 8 never counted. *)
Lemma GetSignatureScore_positive_iff_present_witness :
  (0 <? (GetSignatureScore
           (run one_second (OpCountSignature 7 :: repeat OpDecayScore 39)) 7).1)%float = true
  ∧ ¬ (0 <? (GetSignatureScore
               (run one_second (OpCountSignature 7 :: repeat OpDecayScore 39)) 8).1)%float
      = true.
Proof.
  assert (Hd : 0 < one_second <= Int64.max_int)
    by (unfold one_second, Int64.max_int; lia).
  split.
  - apply (GetSignatureScore_positive_iff_present one_second
             (OpCountSignature 7 :: repeat OpDecayScore 39) 7 Hd).
    vm_compute. eauto.
  - intros H.
    apply (GetSignatureScore_positive_iff_present one_second
             (OpCountSignature 7 :: repeat OpDecayScore 39) 8 Hd) in H.
    vm_compute in H. by destruct H.
Defined.

(** Of two scores, the one of lower rank is the smaller number. *)
Lemma decay_rank_ltb v v' :
  score_normal v → score_normal v' →
  decay_rank (Some v') < decay_rank (Some v) → (v' <? v)%float = true.
Proof.
  intros (m & e & Hv & Hm & He) (m' & e' & Hv' & Hm' & He').
  unfold decay_rank. rewrite Hv, Hv', ltb_spec, Hv, Hv'.
  change (2 ^ 52) with 4503599627370496 in *. change (2 ^ 53) with 9007199254740992 in *.
  intros Hlt. unfold SFltb, SFcompare. fold (Pos.compare m' m).
  destruct (Z.compare_spec e' e) as [->|Hlt'|Hgt]; [|done|nia].
  destruct (Pos.compare_spec m' m); (done || lia).
Qed.

(** X17. In a backend reached from [NewBackend], a decay tick strictly lowers
    the score of every signature that survives it: the quotient by 1.125,
    rounded to binary64, is below the score it came from. *)
Theorem DecayScore_strictly_lowers (d : Z) (ops : list op) (sig : Z) (v v' : float) :
  scores (run d ops) !! sig = Some v →
  scores (DecayScore (run d ops)) !! sig = Some v' →
  (v' <? v)%float = true.
Proof.
  intros Hv Hv'. destruct (scores_normal_run d ops) as [Hdf Hsc].
  rewrite DecayScore_lookup, Hv, Hdf in Hv'. simpl in Hv'.
  destruct (decayed_normal v v' (Hsc sig v Hv) Hv') as [Hn Hrank].
  apply decay_rank_ltb; [by apply (Hsc sig)|done|done].
Qed.

(** One count, one tick: the score falls from 1 to the binary64 number
    nearest to 8/9. *)
Lemma DecayScore_strictly_lowers_witness :
  (0x1.c71c71c71c71cp-1 <? 1)%float = true.
Proof.
  apply (DecayScore_strictly_lowers one_second [OpCountSignature 7] 7).
  - reflexivity.
  - vm_compute. reflexivity.
Defined.

(** ** The sampler backend: stale signatures go *)

Lemma decay_rank_nonneg b sig :
  scores_normal b → 0 <= decay_rank (scores b !! sig)
  ∧ (decay_rank (scores b !! sig) <= 0 → scores b !! sig = None).
Proof.
  intros [_ Hsc]. destruct (scores b !! sig) as [v|] eqn:Hv; [|done].
  destruct (Hsc sig v Hv) as (m & e & Hp & Hm & He). unfold decay_rank. rewrite Hp.
  change (2 ^ 53) with 9007199254740992. split; [nia|]. intros; nia.
Qed.

(** A decay tick drops the entry of a signature or lowers its rank. *)
Lemma DecayScore_rank b sig :
  scores_normal b →
  scores (DecayScore b) !! sig = None
  ∨ decay_rank (scores (DecayScore b) !! sig) < decay_rank (scores b !! sig).
Proof.
  intros [Hdf Hsc]. rewrite DecayScore_lookup, Hdf.
  destruct (scores b !! sig) as [v|] eqn:Hv; [|by left]. simpl.
  destruct (decayed 1.125 v) as [v'|] eqn:Hdec; [|by left]. right.
  by destruct (decayed_normal v v' (Hsc sig v Hv) Hdec).
Qed.

Lemma decay_ticks_absent k : ∀ b sig,
  scores b !! sig = None → scores (Nat.iter k DecayScore b) !! sig = None.
Proof.
  induction k as [|k IH]; intros b sig Hnone; [done|].
  rewrite Nat.iter_succ, DecayScore_lookup. by rewrite IH.
Qed.

Lemma decay_ticks_evict (n : nat) : ∀ b sig,
  scores_normal b → decay_rank (scores b !! sig) <= Z.of_nat n →
  ∀ k, (n <= k)%nat → scores (Nat.iter k DecayScore b) !! sig = None.
Proof.
  induction n as [|n IH]; intros b sig Hok Hrank k Hk.
  - apply decay_ticks_absent. by apply (decay_rank_nonneg b sig Hok).
  - destruct k as [|k]; [lia|]. rewrite Nat.iter_succ_r.
    destruct (DecayScore_rank b sig Hok) as [Hnone|Hlt].
    + by apply decay_ticks_absent.
    + apply IH; [|lia|lia]. by apply (scores_normal_apply_op b OpDecayScore).
Qed.

Lemma run_decay_ticks d ops k :
  run d (ops ++ repeat OpDecayScore k) = Nat.iter k DecayScore (run d ops).
Proof.
  induction k as [|k IH]; [by rewrite app_nil_r|].
  cbn [repeat]. rewrite repeat_cons, app_assoc, run_snoc, IH, Nat.iter_succ. done.
Qed.

(** X15. Stale signatures go: after any history of [CountSignature],
    [CountSample] and [DecayScore] calls, there is a number of decay ticks
    after which, if no signature is counted in between, the scores map is
    empty and [GetCardinality] is 0, and stays so under further ticks. Every
    tick divides a score by 1.125, which on binary64 numbers strictly lowers
    it, and drops it once it is at most [1.125 * minSignatureScoreOffset];
    counting never lifts a score to infinity, where a tick would leave it. *)
Theorem stale_signatures_evicted (d : Z) (ops : list op) :
  ∃ n : nat, ∀ k : nat, (n <= k)%nat →
    scores (run d (ops ++ repeat OpDecayScore k)) = ∅
    ∧ (GetCardinality (run d (ops ++ repeat OpDecayScore k))).1 = 0.
Proof.
  pose proof (scores_normal_run d ops) as Hok. set (b := run d ops) in *.
  assert (Hall : ∀ sigs : list Z, ∃ n : nat, ∀ sig, sig ∈ sigs →
            ∀ k, (n <= k)%nat → scores (Nat.iter k DecayScore b) !! sig = None).
  { induction sigs as [|sig sigs [n IH]].
    - exists 0%nat. intros sig Hin. by apply elem_of_nil in Hin.
    - destruct (decay_rank_nonneg b sig Hok) as [Hr _].
      exists (max n (Z.to_nat (decay_rank (scores b !! sig)))).
      intros sig' [->|Hin]%elem_of_cons k Hk.
      + apply (decay_ticks_evict (Z.to_nat (decay_rank (scores b !! sig)))); [done|lia|lia].
      + apply IH; [done|lia]. }
  destruct (Hall (map_to_list (scores b)).*1) as [n Hn].
  exists n. intros k Hk. rewrite run_decay_ticks. fold b.
  assert (He : scores (Nat.iter k DecayScore b) = ∅).
  { apply map_eq. intros sig. rewrite lookup_empty.
    destruct (scores b !! sig) as [v|] eqn:Hv.
    - apply Hn; [|done]. apply list_elem_of_fmap. exists (sig, v).
      split; [done|]. by apply elem_of_map_to_list.
    - by apply decay_ticks_absent. }
  split; [done|]. unfold GetCardinality. cbn [fst]. by rewrite He, map_size_empty.
Qed.

(** ** Sublayers *)

Import sublayers_test.

Section SublayerShift.
Variable delta : Z.












End SublayerShift.






(** Where the sweep and the test in src part: the test expects the values of
    the sweep by service, for the types sql and redis and for the span count,
    but no value under the empty type, whose time it expects under web. *)
Lemma TestSublayerNested_sweep_and_test :
  filter (λ v, Metric v ≠ "_sublayers.duration.by_type") swept_sublayers
    = filter (λ v, Metric v ≠ "_sublayers.duration.by_type") expected_sublayers
  ∧ sublayer_value "_sublayers.duration.by_type" "sql" swept_sublayers
    = sublayer_value "_sublayers.duration.by_type" "sql" expected_sublayers
  ∧ sublayer_value "_sublayers.duration.by_type" "redis" swept_sublayers
    = sublayer_value "_sublayers.duration.by_type" "redis" expected_sublayers
  ∧ sublayer_value "_sublayers.duration.by_type" "" expected_sublayers = None
  ∧ sublayer_value "_sublayers.duration.by_type" "web" expected_sublayers
    = Some (798800000 + 700000)%float.
Proof. repeat split; vm_compute; reflexivity. Qed.

(** ** The order of the sublayer values in the test *)

Lemma ascii_compare_lt_trans a b c :
  Ascii.compare a b = Lt → Ascii.compare b c = Lt → Ascii.compare a c = Lt.
Proof.
  unfold Ascii.compare. rewrite !N.compare_lt_iff. lia.
Qed.

Lemma string_compare_refl s : String.compare s s = Eq.
Proof.
  induction s as [|a s IH]; [done|]. simpl.
  unfold Ascii.compare. by rewrite N.compare_refl.
Qed.

Lemma string_compare_lt_trans s1 : ∀ s2 s3,
  String.compare s1 s2 = Lt → String.compare s2 s3 = Lt → String.compare s1 s3 = Lt.
Proof.
  induction s1 as [|a s1 IH]; intros [|b s2] [|c s3]; simpl; try done.
  destruct (Ascii.compare a b) eqn:Hab; try done;
    destruct (Ascii.compare b c) eqn:Hbc; try done.
  - apply Ascii.compare_eq_iff in Hab as ->. apply Ascii.compare_eq_iff in Hbc as ->.
    unfold Ascii.compare. rewrite N.compare_refl. apply IH.
  - apply Ascii.compare_eq_iff in Hab as ->. by rewrite Hbc.
  - apply Ascii.compare_eq_iff in Hbc as <-. by rewrite Hab.
  - by rewrite (ascii_compare_lt_trans a b c).
Qed.

Lemma string_ltb_irrefl s : String.ltb s s = false.
Proof. unfold String.ltb. by rewrite string_compare_refl. Qed.

Lemma string_ltb_trans s1 s2 s3 :
  String.ltb s1 s2 = true → String.ltb s2 s3 = true → String.ltb s1 s3 = true.
Proof.
  unfold String.ltb.
  destruct (String.compare s1 s2) eqn:H12; try done.
  destruct (String.compare s2 s3) eqn:H23; try done.
  by rewrite (string_compare_lt_trans s1 s2 s3).
Qed.

Lemma string_ltb_total s1 s2 :
  String.ltb s1 s2 = false → String.ltb s2 s1 = false → s1 = s2.
Proof.
  unfold String.ltb. rewrite (String.compare_antisym s2 s1).
  destruct (String.compare s1 s2) eqn:H12; try done.
  intros _ _. by apply String.compare_eq_iff.
Qed.

(** X16. [sortableSublayers.Less] is a strict order that [sort.Sort] can
    sort by: no value is less than itself, the relation is transitive, and
    two values neither of which is less than the other carry the same metric
    and the same tag value (the name of the tag and the number play no part
    in the order). *)
Theorem Less_strict_order :
  (∀ a, Less a a = false)
  ∧ (∀ a b c, Less a b = true → Less b c = true → Less a c = true)
  ∧ (∀ a b, Less a b = false → Less b a = false →
       Metric a = Metric b ∧ TagValue (Tag_ a) = TagValue (Tag_ b)).
Proof.
  unfold Less. split; [|split].
  - intros a. by rewrite !string_ltb_irrefl, andb_false_r.
  - intros a b c.
    rewrite !orb_true_iff, !andb_true_iff, !String.eqb_eq.
    intros [H1|[E1 H1]] [H2|[E2 H2]].
    + left. by eapply string_ltb_trans.
    + left. by rewrite <- E2.
    + left. by rewrite E1.
    + right. split; [congruence|]. by eapply string_ltb_trans.
  - intros a b. rewrite !orb_false_iff, !andb_false_iff.
    intros [H1 H1'] [H2 H2'].
    pose proof (string_ltb_total _ _ H1 H2) as Hm. split; [done|].
    rewrite Hm, String.eqb_refl in H1'. rewrite Hm, String.eqb_refl in H2'.
    destruct H1' as [|H1']; [done|]. destruct H2' as [|H2']; [done|].
    by apply string_ltb_total.
Qed.
